(** * pi.h: GUID parsing, interface lookup and hybrid reference counting

    A shallow embedding of [pi.h] (namespace [pi]) and the properties of
    its specification.  The repository holds the header in two revisions
    that differ in layout and in how they hold the lock guard (a raw
    pointer, later a [std::unique_ptr]); the definitions follow both.

    - C++ code that can abort or leave the defined behaviour of the language
      is embedded in the [outcome] monad: [Normal] carries the value the
      code returns, [Fault] names the first abort or undefined operation.
      The [assert]s of the source are taken as compiled in.
    - [char] is a byte whose sign is fixed by the platform; every
      definition that reads a [char] takes [char_signed] as a parameter.
    - [int] values are mathematical integers with the range checks written
      out ([INT_MAX], [to_int]).
    - An [UnknownImpl] object is a record of its three counting members
      and of the state of [refMutex].  The member functions are embedded
      twice: as functions of the object, which is what a call does that
      no other call overlaps, and statement by statement ([statement]),
      for threads whose calls overlap and wait for the mutex.  The two
      revisions agree on the first; on the second they differ in
      [Release], where [pi.h] reads [refCountCom] after it has destroyed
      its guard. *)

From Stdlib Require Import ZArith List String Ascii Bool Lia.
Import ListNotations.

Local Open Scope Z_scope.

(* ------------------------------------------------------------------------- *)
(** ** Outcomes                                                              *)
(* ------------------------------------------------------------------------- *)

Inductive fault : Type :=
| AssertionFailed                 (* an assert(...) was false: abort() *)
| TableOutOfBounds (idx : Z)      (* hex2bin[idx] outside the array *)
| StringOverrun                   (* s[i] read past the terminator *)
| SignedOverflow                  (* int arithmetic left the int range *)
| MutexLocked                     (* lock or destruction of a locked mutex *)
| UseAfterDelete.                 (* member access after 'delete this' *)

Inductive outcome (A : Type) : Type :=
| Normal (a : A)
| Fault (f : fault).

Arguments Normal {A} a.
Arguments Fault {A} f.

Definition ret {A : Type} (a : A) : outcome A := Normal a.

Definition bind {A B : Type} (m : outcome A) (k : A -> outcome B) : outcome B :=
  match m with
  | Normal a => k a
  | Fault f => Fault f
  end.

Declare Scope outcome_scope.
Delimit Scope outcome_scope with outcome.
Notation "x <- m ;; k" := (bind m (fun x => k))
  (at level 61, m at next level, right associativity) : outcome_scope.
Notation "m ;;; k" := (bind m (fun _ => k))
  (at level 61, right associativity) : outcome_scope.
Local Open Scope outcome_scope.

(** [assert(b)] of <cassert>. *)
Definition assert (b : bool) : outcome unit :=
  if b then Normal tt else Fault AssertionFailed.

(* ------------------------------------------------------------------------- *)
(** ** Machine integers                                                      *)
(* ------------------------------------------------------------------------- *)

Definition INT_MAX : Z := 2147483647.
Definition INT_MIN : Z := -2147483648.

(** Conversion of a value to [int], [unsigned int], [unsigned short] and
    [unsigned char] (two's complement). *)
Definition to_int (z : Z) : Z := (z + 2 ^ 31) mod 2 ^ 32 - 2 ^ 31.
Definition to_uint (z : Z) : Z := z mod 2 ^ 32.
Definition to_ushort (z : Z) : Z := z mod 2 ^ 16.
Definition to_uchar (z : Z) : Z := z mod 2 ^ 8.

(** [a << n] on [int], for the operands [string_to_guid] shifts: [a] is a
    table entry between 0 and 15 and [n <= 28], so [a * 2^n] fits the
    unsigned type and the result is that value converted to [int]. *)
Definition shl (a n : Z) : Z := to_int (Z.shiftl a n).

(** [a + b], [++a] and [--a] on [int]: overflow is undefined. *)
Definition add_int (a b : Z) : outcome Z :=
  let r := a + b in
  if (INT_MIN <=? r) && (r <=? INT_MAX) then Normal r else Fault SignedOverflow.

Definition incr_int (a : Z) : outcome Z :=
  if a <? INT_MAX then Normal (a + 1) else Fault SignedOverflow.

Definition decr_int (a : Z) : outcome Z :=
  if INT_MIN <? a then Normal (a - 1) else Fault SignedOverflow.

Infix "<<" := shl (at level 35, no associativity) : Z_scope.
Infix "|'" := Z.lor (at level 45, left associativity) : Z_scope.

(* ------------------------------------------------------------------------- *)
(** ** SafeResult                                                            *)
(* ------------------------------------------------------------------------- *)

Inductive SafeResult : Type :=
| S_OK
| E_NOTIMPL
| E_NOINTERFACE
| E_POINTER
| E_FAIL.

(** The enumerators' values as 32-bit patterns. *)
Definition SafeResult_value (r : SafeResult) : Z :=
  match r with
  | S_OK => 0x00000000
  | E_NOTIMPL => 0x80004001
  | E_NOINTERFACE => 0x80004002
  | E_POINTER => 0x80004003
  | E_FAIL => 0x80004005
  end.

(** The enumerators of [pi.h], whose underlying type is [int]:
    [int(0x80004001)] and so on. *)
Definition SafeResult_int (r : SafeResult) : Z := to_int (SafeResult_value r).

(* ------------------------------------------------------------------------- *)
(** ** GUID                                                                  *)
(* ------------------------------------------------------------------------- *)

Record GUID : Type := mkGUID {
  Data1 : Z;          (* unsigned int *)
  Data2 : Z;          (* unsigned short *)
  Data3 : Z;          (* unsigned short *)
  Data4 : list Z      (* unsigned char [8] *)
}.

(** The object representation of a [_GUID]: 4 + 2 + 2 + 8 bytes without
    padding.  The integer members are laid out least significant byte
    first; [operator ==] does not depend on that choice. *)
Fixpoint le_bytes (n : nat) (z : Z) : list Z :=
  match n with
  | O => []
  | S n' => z mod 256 :: le_bytes n' (z / 256)
  end.

Definition guid_bytes (g : GUID) : list Z :=
  le_bytes 4 (Data1 g) ++ le_bytes 2 (Data2 g) ++ le_bytes 2 (Data3 g)
  ++ map to_uchar (firstn 8 (Data4 g)).

Definition sizeof_GUID : nat := 16.

(** [memcmp(a, b, n)]: the difference of the first pair of bytes that
    differ among the first [n], or 0. *)
Fixpoint memcmp (a b : list Z) (n : nat) : Z :=
  match n, a, b with
  | S n', x :: a', y :: b' => if x =? y then memcmp a' b' n' else x - y
  | _, _, _ => 0
  end.

(** [operator ==(_GUID const&, _GUID const&)]. *)
Definition guid_eq (a b : GUID) : bool :=
  memcmp (guid_bytes a) (guid_bytes b) sizeof_GUID =? 0.

Infix "==" := guid_eq (at level 70, no associativity) : Z_scope.

(** The values the members of a [_GUID] can hold. *)
Definition well_formed (g : GUID) : Prop :=
  0 <= Data1 g < 2 ^ 32 /\ 0 <= Data2 g < 2 ^ 16 /\ 0 <= Data3 g < 2 ^ 16 /\
  List.length (Data4 g) = 8%nat /\ Forall (fun b => 0 <= b < 2 ^ 8) (Data4 g).

(* ------------------------------------------------------------------------- *)
(** ** The text interpreter                                                  *)
(* ------------------------------------------------------------------------- *)

(** ascii table until 'f' *)
Definition hex2bin : list Z :=
  [ 99;99;99;99;99;99;99;99;99;99;99;99;99;99;99;99; (* 0x00 *)
    99;99;99;99;99;99;99;99;99;99;99;99;99;99;99;99; (* 0x10 *)
    99;99;99;99;99;99;99;99;99;99;99;99;99;99;99;99; (* 0x20 *)
     0; 1; 2; 3; 4; 5; 6; 7; 8; 9;99;99;99;99;99;99; (* 0x30 *)
    99;10;11;12;13;14;15;99;99;99;99;99;99;99;99;99; (* 0x40 *)
    99;99;99;99;99;99;99;99;99;99;99;99;99;99;99;99; (* 0x50 *)
    99;10;11;12;13;14;15                             (* 0x60 *) ].

(** [hex2bin[idx]]: reading outside the array is undefined. *)
Definition hex2bin_at (idx : Z) : outcome Z :=
  if (0 <=? idx) && (idx <? Z.of_nat (List.length hex2bin))
  then Normal (nth (Z.to_nat idx) hex2bin 0)
  else Fault (TableOutOfBounds idx).

Definition char_code (c : ascii) : Z := Z.of_N (N_of_ascii c).

Section Parser.

(** Whether plain [char] is a signed type on the platform. *)
Variable char_signed : bool.

(** The value of a [char] holding the byte [c], promoted to [int]. *)
Definition char_value (c : ascii) : Z :=
  if char_signed && (128 <=? char_code c)
  then char_code c - 256
  else char_code c.

(** [s[i]] for the NUL-terminated array whose characters are [s]. *)
Definition c_str_at (s : string) (i : nat) : outcome Z :=
  match String.get i s with
  | Some c => Normal (char_value c)
  | None => if Nat.eqb i (String.length s) then Normal 0
            else Fault StringOverrun
  end.

(** One iteration of the checking loop: [true] when the [switch] leaves
    by [break], [false] when it returns false / nullopt. *)
Definition check_char (s : string) (i : nat) : outcome bool :=
  c <- c_str_at s i ;;
  match i with
  | 8%nat | 13%nat | 18%nat | 23%nat =>
      (* check dashes *)
      if negb (c =? char_code "-") then ret false else ret true
  | 36%nat =>
      (* check end of string *)
      if negb (c =? 0) then ret false else ret true
  | _ =>
      (* table is only that long *)
      if c >? char_code "f" then ret false else
      h <- hex2bin_at c ;;
      (* if the value is greater, the char was illegal *)
      if h >? 15 then ret false else ret true
  end.

(** [for (int i = ...; i < 37; ++i)], with [remaining = 37 - i]. *)
Fixpoint check_loop (s : string) (i remaining : nat) : outcome bool :=
  match remaining with
  | O => ret true
  | S r =>
      ok <- check_char s i ;;
      if ok then check_loop s (S i) r else ret false
  end.

(** [hex2bin[s[i]]]. *)
Definition hex (s : string) (i : nat) : outcome Z :=
  c <- c_str_at s i ;; hex2bin_at c.

(** [string_to_guid]: [Some id] is the return of true with [id] filled
    in (part of the optional), [None] the return of false (nullopt). *)
Definition string_to_guid (s : string) : outcome (option GUID) :=
  ok <- check_loop s 0 37 ;;
  if negb ok then ret None else
  h0 <- hex s 0 ;; h1 <- hex s 1 ;; h2 <- hex s 2 ;; h3 <- hex s 3 ;;
  h4 <- hex s 4 ;; h5 <- hex s 5 ;; h6 <- hex s 6 ;; h7 <- hex s 7 ;;
  let data1 := to_uint (h0 << 28 |' h1 << 24 |' h2 << 20 |' h3 << 16 |'
                        h4 << 12 |' h5 << 8 |' h6 << 4 |' h7) in
  h9 <- hex s 9 ;; h10 <- hex s 10 ;; h11 <- hex s 11 ;; h12 <- hex s 12 ;;
  let data2 := to_ushort (h9 << 12 |' h10 << 8 |' h11 << 4 |' h12) in
  h14 <- hex s 14 ;; h15 <- hex s 15 ;; h16 <- hex s 16 ;; h17 <- hex s 17 ;;
  let data3 := to_ushort (h14 << 12 |' h15 << 8 |' h16 << 4 |' h17) in
  h19 <- hex s 19 ;; h20 <- hex s 20 ;;
  let d0 := to_uchar (h19 << 4 |' h20) in
  h21 <- hex s 21 ;; h22 <- hex s 22 ;;
  let d1 := to_uchar (h21 << 4 |' h22) in
  h24 <- hex s 24 ;; h25 <- hex s 25 ;;
  let d2 := to_uchar (h24 << 4 |' h25) in
  h26 <- hex s 26 ;; h27 <- hex s 27 ;;
  let d3 := to_uchar (h26 << 4 |' h27) in
  h28 <- hex s 28 ;; h29 <- hex s 29 ;;
  let d4 := to_uchar (h28 << 4 |' h29) in
  h30 <- hex s 30 ;; h31 <- hex s 31 ;;
  let d5 := to_uchar (h30 << 4 |' h31) in
  h32 <- hex s 32 ;; h33 <- hex s 33 ;;
  let d6 := to_uchar (h32 << 4 |' h33) in
  h34 <- hex s 34 ;; h35 <- hex s 35 ;;
  let d7 := to_uchar (h34 << 4 |' h35) in
  ret (Some (mkGUID data1 data2 data3 [d0; d1; d2; d3; d4; d5; d6; d7])).

End Parser.

Definition PI_IUNKNOWN_IID : string := "00000000-0000-0000-C000-000000000046".

(* ------------------------------------------------------------------------- *)
(** ** The canonical text form, as the specification words it                *)
(* ------------------------------------------------------------------------- *)

(** [XXXXXXXX-XXXX-XXXX-XXXX-XXXXXXXXXXXX]: 8 hex digits, a hyphen, 4 hex
    digits, a hyphen, 4, a hyphen, 4, a hyphen, 12 hex digits. *)
Inductive char_class : Type := HexDigit | Hyphen.

Definition canonical_layout : list char_class :=
  repeat HexDigit 8 ++ [Hyphen] ++ repeat HexDigit 4 ++ [Hyphen] ++
  repeat HexDigit 4 ++ [Hyphen] ++ repeat HexDigit 4 ++ [Hyphen] ++
  repeat HexDigit 12.

Definition in_range (lo hi c : ascii) : bool :=
  (char_code lo <=? char_code c) && (char_code c <=? char_code hi).

(** [0-9], [a-f], [A-F]. *)
Definition is_hex_digit (c : ascii) : bool :=
  in_range "0" "9" c || in_range "a" "f" c || in_range "A" "F" c.

Definition hex_digit_value (c : ascii) : Z :=
  if in_range "0" "9" c then char_code c - char_code "0"
  else if in_range "a" "f" c then char_code c - char_code "a" + 10
  else char_code c - char_code "A" + 10.

Definition in_class (k : char_class) (c : ascii) : bool :=
  match k with
  | HexDigit => is_hex_digit c
  | Hyphen => Ascii.eqb c "-"
  end.

(** The text has one character of the required class per layout position
    and nothing after them. *)
Fixpoint matches_layout (layout : list char_class) (s : string) : bool :=
  match layout, s with
  | [], EmptyString => true
  | k :: layout', String c s' => in_class k c && matches_layout layout' s'
  | _, _ => false
  end.

Definition canonical_text (s : string) : bool :=
  matches_layout canonical_layout s.

(** Big-endian value of a run of hex digits. *)
Definition big_endian (digits : list Z) : Z :=
  fold_left (fun acc d => 16 * acc + d) digits 0.

Fixpoint byte_pairs (digits : list Z) : list Z :=
  match digits with
  | hi :: lo :: rest => big_endian [hi; lo] :: byte_pairs rest
  | _ => []
  end.

(** The 32 hex digits of a canonical text, in order. *)
Definition hex_digits (s : string) : list Z :=
  map hex_digit_value (filter is_hex_digit (list_ascii_of_string s)).

(** First 8 digits: the 32-bit field; next 4 and next 4: the 16-bit
    fields; the remaining 16 digits: 8 byte pairs, of which the last 12
    digits are the last 6. *)
Definition decode_canonical (s : string) : GUID :=
  let ds := hex_digits s in
  mkGUID (big_endian (firstn 8 ds))
         (big_endian (firstn 4 (skipn 8 ds)))
         (big_endian (firstn 4 (skipn 12 ds)))
         (byte_pairs (skipn 16 ds)).

(** The characters of [s] that a reader of the NUL-terminated array sees:
    those before the first NUL. *)
Fixpoint c_string (s : string) : string :=
  match s with
  | EmptyString => EmptyString
  | String c s' => if char_code c =? 0 then EmptyString else String c (c_string s')
  end.

(** A string that holds no NUL before its terminator. *)
Definition no_NUL (s : string) : bool :=
  forallb (fun c => negb (char_code c =? 0)) (list_ascii_of_string s).

(** Every byte of the string is below 128. *)
Definition seven_bit (s : string) : bool :=
  forallb (fun c => char_code c <? 128) (list_ascii_of_string s).

(* ------------------------------------------------------------------------- *)
(** ** Interfaces and their identifiers                                      *)
(* ------------------------------------------------------------------------- *)

(** An interface declared with [PASCAL_INTERFACE_BEGIN(name, iid)]
    (as [struct name : PascalInterface<IID>] in the later revision). *)
Record interface : Type := mkInterface {
  iface_name : string;
  iface_iid : string
}.

(** [struct IUnknown], declared with [PI_IUNKNOWN_IID]. *)
Definition IUnknown : interface := mkInterface "IUnknown" PI_IUNKNOWN_IID.

(** An interface together with the constant its [__guid()] evaluates to. *)
Record descriptor : Type := mkDescriptor {
  d_interface : interface;
  d_guid : GUID
}.

(** The value [void*] slots hold. *)
Inductive pointer : Type :=
| nullptr
| this_as (I : interface)       (* static_cast<I*>(this) *)
| address (a : Z).              (* anything else *)

Section Compile.

Variable char_signed : bool.

(** [I::__guid()]: a constant expression, with a [static_assert] that the
    text parsed.  [None] stands for a program that does not compile: the
    assertion fails, or the evaluation is not a constant expression
    because it reads outside [hex2bin]. *)
Definition __guid (I : interface) : option GUID :=
  match string_to_guid char_signed (iface_iid I) with
  | Normal (Some id) => Some id
  | _ => None
  end.

Fixpoint descriptors (Is : list interface) : option (list descriptor) :=
  match Is with
  | [] => Some []
  | I1 :: IRest =>
      match __guid I1, descriptors IRest with
      | Some g, Some ds => Some (mkDescriptor I1 g :: ds)
      | _, _ => None
      end
  end.

(** A class cannot name one type twice among its direct bases. *)
Fixpoint distinct_bases (Is : list interface) : bool :=
  match Is with
  | [] => true
  | I1 :: IRest =>
      negb (existsb (fun J => String.eqb (iface_name I1) (iface_name J)) IRest)
      && distinct_bases IRest
  end.

(** Instantiating [UnknownImpl<Interfaces...>], whose bases are
    [IUnknown, Interfaces...]: the descriptors [QueryInterface] scans, or
    [None] when the instantiation does not compile.  Nothing here compares
    the identifiers of two interfaces. *)
Definition instantiate (Interfaces : list interface) : option (list descriptor) :=
  if distinct_bases (IUnknown :: Interfaces)
  then descriptors (IUnknown :: Interfaces)
  else None.

End Compile.

(** The constant [IUnknown::__guid()]. *)
Definition IID_IUnknown : GUID := mkGUID 0 0 0 [0xC0; 0; 0; 0; 0; 0; 0; 0x46].

Definition IUnknown_descriptor : descriptor := mkDescriptor IUnknown IID_IUnknown.

(* ------------------------------------------------------------------------- *)
(** ** Argument checks                                                       *)
(* ------------------------------------------------------------------------- *)

(** [!p] *)
Definition is_null (p : pointer) : bool :=
  match p with
  | nullptr => true
  | _ => false
  end.

(** [PI_SAFECALL_CHECKARGS(...)]: the loop over [const void *ps[] =
    {__VA_ARGS__}] at index [i], with [remaining = sizeof(ps) /
    sizeof(void* ) - i], so that [ps[i]] is an element of the array.
    [Some E_POINTER] is the [return] out of the function that uses the
    macro, [None] the end of the block. *)
Fixpoint PI_SAFECALL_CHECKARGS_loop (ps : list pointer) (i remaining : nat)
    : option SafeResult :=
  match remaining with
  | O => None
  | S r =>
      if is_null (nth i ps nullptr) then Some E_POINTER
      else PI_SAFECALL_CHECKARGS_loop ps (S i) r
  end.

Definition PI_SAFECALL_CHECKARGS (args : list pointer) : option SafeResult :=
  PI_SAFECALL_CHECKARGS_loop args 0 (List.length args).

(* ------------------------------------------------------------------------- *)
(** ** UnknownImpl                                                           *)
(* ------------------------------------------------------------------------- *)

Record UnknownImpl : Type := mkUnknownImpl {
  refCountCom : Z;          (* ref count by COM-like interface consumers *)
  refCountSharedPtr : Z;    (* number of shared_ptr objects handed out *)
  refStarted : bool;        (* the first reference has been added *)
  refMutex : bool           (* the mutex is locked *)
}.

(** [UnknownImpl() : refCountCom(0), refCountSharedPtr(0), refStarted(false),
    refMutex()] *)
Definition new_UnknownImpl : UnknownImpl := mkUnknownImpl 0 0 false false.

(** What is left of the object after a member function: the object, or
    nothing once [delete this] has run. *)
Inductive lifetime : Type :=
| Alive (o : UnknownImpl)
| Deleted.

(** Assignments to the members. *)
Definition set_refCountCom (o : UnknownImpl) (c : Z) : UnknownImpl :=
  mkUnknownImpl c (refCountSharedPtr o) (refStarted o) (refMutex o).

Definition set_refCountSharedPtr (o : UnknownImpl) (c : Z) : UnknownImpl :=
  mkUnknownImpl (refCountCom o) c (refStarted o) (refMutex o).

Definition set_refStarted (o : UnknownImpl) (b : bool) : UnknownImpl :=
  mkUnknownImpl (refCountCom o) (refCountSharedPtr o) b (refMutex o).

Definition set_refMutex (o : UnknownImpl) (b : bool) : UnknownImpl :=
  mkUnknownImpl (refCountCom o) (refCountSharedPtr o) (refStarted o) b.

(** The constructor of a [std::scoped_lock] on [refMutex].  On a locked
    mutex the caller waits for the thread that holds it; the call is not
    followed further (and a thread that locks the mutex it holds has no
    defined behaviour). *)
Definition lock (o : UnknownImpl) : outcome UnknownImpl :=
  if refMutex o then Fault MutexLocked else Normal (set_refMutex o true).

(** The destructor of the guard. *)
Definition unlock (o : UnknownImpl) : UnknownImpl := set_refMutex o false.

(** [delete this]: the members are destroyed, [refMutex] among them, and
    a mutex must not be destroyed while it is locked. *)
Definition delete_this (o : UnknownImpl) : outcome lifetime :=
  if refMutex o then Fault MutexLocked else Normal Deleted.

Definition is_zero (z : Z) : bool := z =? 0.

(** [assertAddReference]. *)
Definition assertAddReference (o : UnknownImpl) : outcome unit :=
  sum <- add_int (refCountCom o) (refCountSharedPtr o) ;;
  if refStarted o
  then assert (sum >? 0)       (* why aren't we deleted yet? *)
  else assert (sum =? 0).      (* there should be no references yet *)

(** [TryDelete(guard)]: called when one reference counting mechanism sees
    no more references.  Returned with the object: whether the guard is
    still there. *)
Definition TryDelete (o : UnknownImpl) : outcome (lifetime * bool) :=
  if is_zero (refCountCom o) && is_zero (refCountSharedPtr o)
  then
    (* reference count has been verified to be zero, mutex is not valid
       after call to delete; destruct guard now! *)
    let o := unlock o in
    l <- delete_this o ;;
    ret (l, false)
  else ret (Alive o, true).

(** The end of the scope of a guard that [TryDelete] may have destroyed
    ([if (guard) delete guard;]). *)
Definition end_of_guard (r : lifetime * bool) : lifetime :=
  match r with
  | (Alive o, true) => Alive (unlock o)
  | (l, _) => l
  end.

(** [AddRef]: returns the incremented [refCountCom]. *)
Definition AddRef (o : UnknownImpl) : outcome (Z * UnknownImpl) :=
  o <- lock o ;;
  assertAddReference o ;;;
  let o := set_refStarted o true in
  c <- incr_int (refCountCom o) ;;
  let o := set_refCountCom o c in
  ret (c, unlock o).

(** [Release], for a call that no other call overlaps.  The value
    returned when the count is not zero is [refCountCom] as the decrement
    left it; [pi.h] reads it after it has destroyed the guard, the later
    revision before, which makes a difference only when another call
    comes in between ([statement]). *)
Definition Release (o : UnknownImpl) : outcome (Z * lifetime) :=
  o <- lock o ;;
  assert (refStarted o) ;;;
  assert (refCountCom o >? 0) ;;;
  c <- decr_int (refCountCom o) ;;
  let o := set_refCountCom o c in
  if is_zero c
  then
    (* if there are no references by shared_ptr this is 'delete this';
       the return value is hard coded *)
    r <- TryDelete o ;;
    ret (0, end_of_guard r)
  else ret (refCountCom o, Alive (unlock o)).

(** The counting part of [shared_ptr<T>()], for a [T] the object can be
    cast to: the handle returned owns [dynamic_cast<T*>(this)] and runs
    [shared_ptr_deleter] when the last copy of it goes away. *)
Definition shared_ptr (o : UnknownImpl) : outcome UnknownImpl :=
  o <- lock o ;;
  assertAddReference o ;;;
  let o := set_refStarted o true in
  c <- incr_int (refCountSharedPtr o) ;;
  let o := set_refCountSharedPtr o c in
  ret (unlock o).

(** The deleter lambda of the handle. *)
Definition shared_ptr_deleter (o : UnknownImpl) : outcome lifetime :=
  o <- lock o ;;
  assert (refStarted o) ;;;
  assert (refCountSharedPtr o >? 0) ;;;
  c <- decr_int (refCountSharedPtr o) ;;
  let o := set_refCountSharedPtr o c in
  if is_zero c
  then r <- TryDelete o ;; ret (end_of_guard r)
  else ret (Alive (unlock o)).

Section Lookup.

(** The template arguments [Interfaces...] of the object's class. *)
Variable Interfaces : list descriptor.

(** [QueryInterfaceImpl<I1, IRest...>(guid, pvObject)]: expands
    recursively and checks one interface at a time. *)
Fixpoint QueryInterfaceImpl (I1 : descriptor) (IRest : list descriptor)
    (o : UnknownImpl) (guid : GUID) (pvObject : pointer)
    : outcome (bool * pointer * UnknownImpl) :=
  if guid == d_guid I1 then
    (* by definition I1 is implemented: a fast static_cast *)
    let pvObject := this_as (d_interface I1) in
    r <- AddRef o ;;
    ret (true, pvObject, snd r)
  else
    match IRest with
    | I2 :: IRest' => QueryInterfaceImpl I2 IRest' o guid pvObject
    | [] => ret (false, pvObject, o)
    end.

(** [QueryInterface(pguid, ppvObject)]: [None] is a null argument,
    [Some v] for [ppvObject] a slot that holds [v]; the slot is returned
    with the result. *)
Definition QueryInterface (o : UnknownImpl)
    (pguid : option GUID) (ppvObject : option pointer)
    : outcome (SafeResult * option pointer * UnknownImpl) :=
  match pguid, ppvObject with
  | Some guid, Some pvObject =>
      r <- QueryInterfaceImpl IUnknown_descriptor Interfaces o guid pvObject ;;
      let '(found, pvObject, o) := r in
      if found
      then ret (S_OK, Some pvObject, o)
      else ret (E_NOINTERFACE, Some pvObject, o)
  | _, _ => ret (E_POINTER, ppvObject, o)
  end.

(** The calls a holder of the object can make. *)
Inductive call : Type :=
| CallQueryInterface (pguid : option GUID) (ppvObject : option pointer)
| CallAddRef
| CallRelease
| CallSharedPtr
| CallDeleter.

(** One call that no other call overlaps; after [delete this] there is
    no object to call. *)
Definition step (c : call) (l : lifetime) : outcome lifetime :=
  match l with
  | Deleted => Fault UseAfterDelete
  | Alive o =>
      match c with
      | CallQueryInterface pguid ppvObject =>
          r <- QueryInterface o pguid ppvObject ;; ret (Alive (snd r))
      | CallAddRef => r <- AddRef o ;; ret (Alive (snd r))
      | CallRelease => r <- Release o ;; ret (snd r)
      | CallSharedPtr => o' <- shared_ptr o ;; ret (Alive o')
      | CallDeleter => shared_ptr_deleter o
      end
  end.

(** Calls made one after the other, none overlapping another. *)
Fixpoint run (cs : list call) (l : lifetime) : outcome lifetime :=
  match cs with
  | [] => ret l
  | c :: rest => l' <- step c l ;; run rest l'
  end.

(** How many of the calls ran [delete this]. *)
Fixpoint deletions (cs : list call) (l : lifetime) : nat :=
  match cs with
  | [] => O
  | c :: rest =>
      match l, step c l with
      | Alive _, Normal Deleted => S (deletions rest Deleted)
      | _, Normal l' => deletions rest l'
      | _, Fault _ => O
      end
  end.

End Lookup.

(* ------------------------------------------------------------------------- *)
(** ** The reference protocol of the specification                           *)
(* ------------------------------------------------------------------------- *)

(** The invariants of the data model on a live object, between calls. *)
Definition invariant (o : UnknownImpl) : Prop :=
  0 <= refCountCom o /\ 0 <= refCountSharedPtr o /\
  (refStarted o = false -> refCountCom o = 0 /\ refCountSharedPtr o = 0) /\
  (refStarted o = true -> refCountCom o + refCountSharedPtr o > 0) /\
  refMutex o = false.

Definition lifetime_invariant (l : lifetime) : Prop :=
  match l with
  | Alive o => invariant o
  | Deleted => True
  end.

(** The four counting operations, by the names the specification uses. *)
Inductive refop : Type :=
| acquireExternal
| releaseExternal
| acquireShared
| releaseShared.

Definition call_of (op : refop) : call :=
  match op with
  | acquireExternal => CallAddRef
  | releaseExternal => CallRelease
  | acquireShared => CallSharedPtr
  | releaseShared => CallDeleter
  end.

Definition external_delta (op : refop) : Z :=
  match op with
  | acquireExternal => 1
  | releaseExternal => -1
  | _ => 0
  end.

Definition shared_delta (op : refop) : Z :=
  match op with
  | acquireShared => 1
  | releaseShared => -1
  | _ => 0
  end.

Definition total (delta : refop -> Z) (ops : list refop) : Z :=
  fold_right (fun op n => delta op + n) 0 ops.

(** External references and shared handles acquired and not yet released
    by the operations [ops]. *)
Definition outstanding_external : list refop -> Z := total external_delta.
Definition outstanding_shared : list refop -> Z := total shared_delta.

(** After the operations [p] some reference or handle is outstanding, no
    kind has been released more often than acquired, and the counts fit
    an [int]. *)
Definition held (p : list refop) : bool :=
  (0 <=? outstanding_external p) && (0 <=? outstanding_shared p) &&
  (0 <? outstanding_external p + outstanding_shared p) &&
  (outstanding_external p + outstanding_shared p <=? INT_MAX).

(** A balanced interleaving: a non-empty sequence of operations in which
    the object is held after every operation but the last, and after the
    last everything acquired has been released. *)
Definition balanced (ops : list refop) : bool :=
  negb (Nat.eqb (List.length ops) 0) &&
  forallb (fun n => held (firstn n ops)) (seq 1 (List.length ops - 1)) &&
  (outstanding_external ops =? 0) && (outstanding_shared ops =? 0).


(** No descriptor of [ds] compares equal to [guid]. *)
Definition no_match (guid : GUID) (ds : list descriptor) : bool :=
  forallb (fun d => negb (guid == d_guid d)) ds.

(** The object as one more external reference leaves it. *)
Definition acquired (o : UnknownImpl) : UnknownImpl :=
  mkUnknownImpl (refCountCom o + 1) (refCountSharedPtr o) true false.

(** The object after the operations [p], run from a new object. *)
Definition object_after (p : list refop) : UnknownImpl :=
  mkUnknownImpl (outstanding_external p) (outstanding_shared p)
                (negb (Nat.eqb (List.length p) 0)) false.

(** The decrement that leaves both counters at zero. *)
Definition last_release (c : call) (o : UnknownImpl) : Prop :=
  refMutex o = false /\ refStarted o = true /\
  ((c = CallRelease /\ refCountCom o = 1 /\ refCountSharedPtr o = 0) \/
   (c = CallDeleter /\ refCountCom o = 0 /\ refCountSharedPtr o = 1)).

(* ------------------------------------------------------------------------- *)
(** ** Threads                                                               *)
(* ------------------------------------------------------------------------- *)

(** The two revisions of the header: [pi.h], and the later one that holds
    the guard in a [std::unique_ptr]. *)
Inductive revision : Type :=
| pi_h
| later_revision.

(** The statements of [AddRef], [Release], [shared_ptr<T>] and the
    handle's deleter at which a thread can stand. *)
Inductive point : Type :=
| at_lock                 (* the guard is made: std::scoped_lock(refMutex) *)
| at_assertAddReference   (* assertAddReference(guard); *)
| at_refStarted           (* refStarted = true; *)
| at_increment            (* ++refCountCom / refCountSharedPtr++ *)
| at_assert_started       (* assert(refStarted); *)
| at_assert_count         (* assert(refCountCom > 0) / (refCountSharedPtr > 0) *)
| at_decrement            (* if (!--refCountCom) / (!--refCountSharedPtr) *)
| at_TryDelete            (* if (!refCountCom && !refCountSharedPtr) *)
| at_TryDelete_guard      (* delete guard; guard = nullptr; / guard.reset(); *)
| at_delete_this          (* delete this; *)
| at_delete_guard         (* delete guard; of Release in pi.h, line 277 *)
| at_return_count         (* return refCountCom; *)
| at_guard_end.           (* if (guard) delete guard; / the guard's scope ends *)

(** The counter an operation counts on. *)
Definition counter_of (op : refop) (o : UnknownImpl) : Z :=
  match op with
  | acquireExternal | releaseExternal => refCountCom o
  | acquireShared | releaseShared => refCountSharedPtr o
  end.

Definition set_counter_of (op : refop) (o : UnknownImpl) (c : Z) : UnknownImpl :=
  match op with
  | acquireExternal | releaseExternal => set_refCountCom o c
  | acquireShared | releaseShared => set_refCountSharedPtr o c
  end.

(** The statement that follows the making of the guard. *)
Definition after_lock (op : refop) : point :=
  match op with
  | acquireExternal | acquireShared => at_assertAddReference
  | releaseExternal | releaseShared => at_assert_started
  end.

(** What one statement does when a thread executes it. *)
Inductive effect : Type :=
| Waits                               (* the mutex is held: the thread waits *)
| Goes (p : point) (l : lifetime)     (* on to the next statement *)
| Returns (l : lifetime)              (* the call returns *)
| Stops (f : fault).                  (* abort, or no defined behaviour *)

(** The statement at [p] of the member function for [op], executed on
    the object as the threads share it.  The guard's constructor takes the
    mutex or, while another thread holds it, waits.  Every statement reads
    or writes a member, the mutex among them, so none is defined once the
    object is deleted.  In [Release] the two revisions differ where the
    count is not zero: [pi.h] has [delete guard; return refCountCom;], the
    later revision reads the count while the guard lives.  Allocations
    (of the guard, of the handle) are taken to succeed, and a handle is
    for a type the object can be cast to. *)
Definition statement (rev : revision) (op : refop) (p : point) (l : lifetime)
    : effect :=
  match l with
  | Deleted => Stops UseAfterDelete
  | Alive o =>
      match p with
      | at_lock =>
          match lock o with
          | Normal o => Goes (after_lock op) (Alive o)
          | Fault _ => Waits
          end
      | at_assertAddReference =>
          match assertAddReference o with
          | Normal _ => Goes at_refStarted l
          | Fault f => Stops f
          end
      | at_refStarted => Goes at_increment (Alive (set_refStarted o true))
      | at_increment =>
          match incr_int (counter_of op o) with
          | Normal c => Goes at_guard_end (Alive (set_counter_of op o c))
          | Fault f => Stops f
          end
      | at_assert_started =>
          match assert (refStarted o) with
          | Normal _ => Goes at_assert_count l
          | Fault f => Stops f
          end
      | at_assert_count =>
          match assert (counter_of op o >? 0) with
          | Normal _ => Goes at_decrement l
          | Fault f => Stops f
          end
      | at_decrement =>
          match decr_int (counter_of op o) with
          | Normal c =>
              let o := set_counter_of op o c in
              if is_zero c then Goes at_TryDelete (Alive o)
              else
                match op, rev with
                | releaseExternal, pi_h => Goes at_delete_guard (Alive o)
                | releaseExternal, later_revision => Goes at_return_count (Alive o)
                | _, _ => Goes at_guard_end (Alive o)
                end
          | Fault f => Stops f
          end
      | at_TryDelete =>
          if is_zero (refCountCom o) && is_zero (refCountSharedPtr o)
          then Goes at_TryDelete_guard l
          else Goes at_guard_end l
      | at_TryDelete_guard => Goes at_delete_this (Alive (unlock o))
      | at_delete_this =>
          match delete_this o with
          | Normal l' => Returns l'
          | Fault f => Stops f
          end
      | at_delete_guard => Goes at_return_count (Alive (unlock o))
      | at_return_count =>
          match rev with
          | pi_h => Returns l
          | later_revision => Goes at_guard_end l
          end
      | at_guard_end => Returns (Alive (unlock o))
      end
  end.

(** A call run from [p] on without another thread in between. *)
Fixpoint finish (rev : revision) (op : refop) (fuel : nat) (p : point)
    (l : lifetime) : option (outcome lifetime) :=
  match fuel with
  | O => None
  | S n =>
      match statement rev op p l with
      | Waits => Some (Fault MutexLocked)
      | Goes p' l' => finish rev op n p' l'
      | Returns l' => Some (Normal l')
      | Stops f => Some (Fault f)
      end
  end.

(** A thread: the calls it has still to make, and the statement of the
    first of them at which it stands. *)
Record thread : Type := mkThread {
  pending : list refop;
  standing : point
}.

(** The object, the threads that share it, the calls in the order in
    which they took the mutex (or reached for it on a deleted object),
    how often [delete this] has run, and what stopped the program. *)
Record machine : Type := mkMachine {
  object : lifetime;
  threads : list thread;
  lock_order : list refop;
  deleted : nat;
  stopped : option fault
}.

Fixpoint set_nth {A : Type} (i : nat) (x : A) (l : list A) : list A :=
  match l, i with
  | [], _ => []
  | _ :: l', O => x :: l'
  | y :: l', S i' => y :: set_nth i' x l'
  end.

Definition start (ops : list (list refop)) : machine :=
  mkMachine (Alive new_UnknownImpl) (map (fun t => mkThread t at_lock) ops)
            [] 0 None.

Definition order_after (p : point) (op : refop) (order : list refop)
    : list refop :=
  match p with
  | at_lock => order ++ [op]
  | _ => order
  end.

Definition deleted_after (before after : lifetime) (n : nat) : nat :=
  match before, after with
  | Alive _, Deleted => S n
  | _, _ => n
  end.

(** Thread [i] executes the statement at which it stands. *)
Definition thread_step (rev : revision) (i : nat) (m : machine) : machine :=
  match stopped m, nth_error (threads m) i with
  | None, Some (mkThread (op :: rest) p) =>
      match statement rev op p (object m) with
      | Waits => m
      | Goes p' l' =>
          mkMachine l' (set_nth i (mkThread (op :: rest) p') (threads m))
                    (order_after p op (lock_order m))
                    (deleted_after (object m) l' (deleted m)) None
      | Returns l' =>
          mkMachine l' (set_nth i (mkThread rest at_lock) (threads m))
                    (order_after p op (lock_order m))
                    (deleted_after (object m) l' (deleted m)) None
      | Stops f =>
          mkMachine (object m) (threads m) (order_after p op (lock_order m))
                    (deleted m) (Some f)
      end
  | _, _ => m
  end.

(** The threads scheduled in the order [schedule]. *)
Definition exec (rev : revision) (schedule : list nat) (m : machine) : machine :=
  fold_left (fun m i => thread_step rev i m) schedule m.

Definition finished (m : machine) : bool :=
  forallb (fun t => match pending t with [] => true | _ => false end)
          (threads m).

(** A lock order that the reference protocol allows so far: after every
    call but the last the object is held, and the last call leaves it
    held or is the release of the last reference. *)
Definition legal (t : list refop) : bool :=
  forallb (fun n => held (firstn n t)) (seq 1 (List.length t - 1)) &&
  (Nat.eqb (List.length t) 0 || held t ||
   (outstanding_external t =? 0) && (outstanding_shared t =? 0)).

Section Schedules.

Variable Interfaces : list descriptor.

(** The calls of [t] made one after the other on a new object. *)
Definition atomic (t : list refop) : outcome lifetime :=
  run Interfaces (map call_of t) (Alive new_UnknownImpl).

(** No thread is inside a call: the object is as the calls that took
    the mutex, made one after the other, leave it. *)
Definition quiet (m : machine) : Prop :=
  (forall j t, nth_error (threads m) j = Some t -> standing t = at_lock) /\
  atomic (lock_order m) = Normal (object m).

(** Thread [i] is inside a call, and it alone: run on without the other
    threads, the call ends as the calls that took the mutex, made one
    after the other, end; and the thread holds the mutex up to the
    statement [delete this]. *)
Definition busy (m : machine) (i : nat) : Prop :=
  exists (op : refop) (rest : list refop) (p : point),
    nth_error (threads m) i = Some (mkThread (op :: rest) p) /\
    p <> at_lock /\ p <> at_delete_guard /\
    (forall j t, j <> i -> nth_error (threads m) j = Some t ->
                 standing t = at_lock) /\
    (exists n, finish later_revision op n p (object m)
               = Some (atomic (lock_order m))) /\
    (p <> at_delete_this -> exists o, object m = Alive o /\ refMutex o = true).

Definition consistent (m : machine) : Prop :=
  stopped m = None /\
  deleted m = match object m with Deleted => 1%nat | Alive _ => 0%nat end /\
  (quiet m \/ exists i, busy m i).

End Schedules.

(* ------------------------------------------------------------------------- *)
(** ** Concrete inputs                                                       *)
(* ------------------------------------------------------------------------- *)

(** Two interface types declared with one identifier text. *)
Definition IFoo : interface :=
  mkInterface "IFoo" "6F1D2A3B-4C5D-4E6F-8091-A2B3C4D5E6F7".
Definition IBar : interface :=
  mkInterface "IBar" "6F1D2A3B-4C5D-4E6F-8091-A2B3C4D5E6F7".

Definition IID_IFoo : GUID :=
  mkGUID 0x6F1D2A3B 0x4C5D 0x4E6F [0x80; 0x91; 0xA2; 0xB3; 0xC4; 0xD5; 0xE6; 0xF7].

(** Two threads, each with a reference of its own to take and give back,
    and a schedule: both call [AddRef]; thread 0 runs [Release] up to its
    [return]; thread 1 is scheduled for the seven statements of a
    [Release] that deletes. *)
Definition two_threads : list (list refop) :=
  [[acquireExternal; releaseExternal]; [acquireExternal; releaseExternal]].

Definition releases_overlap : list nat :=
  repeat 0%nat 5 ++ repeat 1%nat 5 ++ repeat 0%nat 5 ++ repeat 1%nat 7.

(** Then thread 0 goes on, and thread 1 is scheduled once more. *)
Definition releases_overlap_to_the_end : list nat :=
  releases_overlap ++ [0%nat] ++ repeat 1%nat 7.

(** A text whose first byte is 0xE9 (Latin-1 e acute). *)
Definition text_E9 : string :=
  String (ascii_of_nat 233) "0000000-0000-0000-C000-000000000046".

(** A text of the canonical length whose last byte is 0xFF. *)
Definition text_FF : string :=
  "00000000-0000-0000-C000-00000000004" ++ String (ascii_of_nat 255) EmptyString.

(* ------------------------------------------------------------------------- *)
(** ** The checking loop, position by position                               *)
(* ------------------------------------------------------------------------- *)

(** What the [switch] of the checking loop expects at index [i]: a hex
    digit, a hyphen, or ([None]) the terminator. *)
Definition position_class (i : nat) : option char_class :=
  match i with
  | 8%nat | 13%nat | 18%nat | 23%nat => Some Hyphen
  | 36%nat => None
  | _ => Some HexDigit
  end.

(** The body of the selected [case] on the character value [c]. *)
Definition check_class (k : option char_class) (c : Z) : outcome bool :=
  match k with
  | Some Hyphen => if negb (c =? char_code "-") then ret false else ret true
  | None => if negb (c =? 0) then ret false else ret true
  | Some HexDigit =>
      if c >? char_code "f" then ret false else
      h <- hex2bin_at c ;;
      if h >? 15 then ret false else ret true
  end.

(** The loop on what is left of the string. *)
Fixpoint scan (char_signed : bool) (ks : list (option char_class)) (s : string)
    : outcome bool :=
  match ks with
  | [] => ret true
  | k :: ks' =>
      ok <- (c <- c_str_at char_signed s 0 ;; check_class k c) ;;
      if ok
      then scan char_signed ks' (match s with String _ s' => s' | _ => s end)
      else ret false
  end.

(** Every [char] of the string has a value that is not negative. *)
Definition plain (char_signed : bool) (s : string) : bool :=
  negb char_signed || seven_bit s.

Definition all_ascii : list ascii := map ascii_of_nat (seq 0 256).

(** Equality of the results of a check, as far as checks produce them. *)
Definition outcome_eqb (a b : outcome bool) : bool :=
  match a, b with
  | Normal x, Normal y => Bool.eqb x y
  | Fault (TableOutOfBounds i), Fault (TableOutOfBounds j) => i =? j
  | _, _ => false
  end.

(** The values of hex digits, and the layout positions that hold one. *)
Definition digit (d : Z) : Prop := 0 <= d <= 15.

Definition is_HexDigit (k : char_class) : bool :=
  match k with
  | HexDigit => true
  | Hyphen => false
  end.

(* ------------------------------------------------------------------------- *)
(** ** Tactics                                                               *)
(* ------------------------------------------------------------------------- *)

Ltac int_bounds := unfold INT_MAX, INT_MIN in *.

(** Decide the integer comparisons of the goal from the context. *)
Ltac zcmp :=
  repeat (cbn [andb orb negb bind ret fst snd];
          match goal with
          | |- context [Z.gtb ?a ?b] => rewrite (Z.gtb_ltb a b)
          | |- context [Z.leb ?a ?b] => destruct (Z.leb_spec a b); try lia
          | |- context [Z.ltb ?a ?b] => destruct (Z.ltb_spec a b); try lia
          | |- context [Z.eqb ?a ?b] => destruct (Z.eqb_spec a b); try lia
          end);
  cbn [andb orb negb bind ret fst snd].

(** Decide the integer comparisons of a hypothesis. *)
Ltac zcmp_in H :=
  repeat (cbn [andb orb negb bind ret fst snd] in H;
          match type of H with
          | context [Z.gtb ?a ?b] => rewrite (Z.gtb_ltb a b) in H
          | context [Z.leb ?a ?b] => destruct (Z.leb_spec a b)
          | context [Z.ltb ?a ?b] => destruct (Z.ltb_spec a b)
          | context [Z.eqb ?a ?b] => destruct (Z.eqb_spec a b)
          end);
  cbn [andb orb negb bind ret fst snd] in H.

(** Turn the innermost [Z.lor] of the goal into a sum with [low], the
    lemma on an operand below [2^n] and one that is a multiple of it. *)
Ltac lor_sum low n :=
  match goal with
  | |- context [Z.lor ?hi ?lo] =>
      lazymatch hi with
      | context [Z.lor _ _] => fail
      | _ => rewrite (low n hi lo) by (try lia; Z.div_mod_to_equations; lia)
      end
  end.

(** Take the first character off a string that matches a layout, with
    [inv] the inversion lemma of the match. *)
Ltac split_layout inv H :=
  let c := fresh "c" in
  let s := fresh "s" in
  let Hc := fresh "Hc" in
  let Hs := fresh "Hs" in
  apply inv in H as (c & s & -> & Hc & Hs & H);
  rewrite Hs; clear Hs.

(* ------------------------------------------------------------------------- *)
(** ** The counting members                                                  *)
(* ------------------------------------------------------------------------- *)

Lemma assertAddReference_ok (o : UnknownImpl) :
  0 <= refCountCom o -> 0 <= refCountSharedPtr o ->
  (refStarted o = false -> refCountCom o = 0 /\ refCountSharedPtr o = 0) ->
  (refStarted o = true -> refCountCom o + refCountSharedPtr o > 0) ->
  refCountCom o + refCountSharedPtr o <= INT_MAX ->
  assertAddReference o = Normal tt.
Proof.
  destruct o as [c s st m]; unfold assertAddReference, add_int, assert.
  simpl; intros Hc Hs Hn Hp Hmax; int_bounds.
  destruct st; cbn [bind].
  - specialize (Hp eq_refl). zcmp. reflexivity.
  - destruct (Hn eq_refl) as [-> ->]. reflexivity.
Qed.

Lemma AddRef_ok (o : UnknownImpl) :
  invariant o -> refCountCom o + refCountSharedPtr o < INT_MAX ->
  AddRef o = Normal (refCountCom o + 1, acquired o).
Proof.
  intros (Hc & Hs & Hn & Hp & Hm) Hmax. unfold AddRef, lock. rewrite Hm.
  cbn [bind]. rewrite assertAddReference_ok by (auto; simpl; lia).
  destruct o as [c s st m]; simpl in *.
  unfold incr_int; int_bounds. zcmp. reflexivity.
Qed.

Lemma shared_ptr_ok (o : UnknownImpl) :
  invariant o -> refCountCom o + refCountSharedPtr o < INT_MAX ->
  shared_ptr o =
  Normal (mkUnknownImpl (refCountCom o) (refCountSharedPtr o + 1) true false).
Proof.
  intros (Hc & Hs & Hn & Hp & Hm) Hmax. unfold shared_ptr, lock. rewrite Hm.
  cbn [bind]. rewrite assertAddReference_ok by (auto; simpl; lia).
  destruct o as [c s st m]; simpl in *.
  unfold incr_int; int_bounds. zcmp. reflexivity.
Qed.

(** What [Release] does wherever its assertions hold and the mutex is free. *)
Lemma Release_ok (o : UnknownImpl) :
  refMutex o = false -> refStarted o = true -> 0 < refCountCom o ->
  Release o =
  Normal (refCountCom o - 1,
          if is_zero (refCountCom o - 1) && is_zero (refCountSharedPtr o)
          then Deleted
          else Alive (mkUnknownImpl (refCountCom o - 1) (refCountSharedPtr o)
                                    true false)).
Proof.
  destruct o as [c s st m]; simpl; intros -> -> Hc.
  unfold Release, lock, decr_int, assert, TryDelete, delete_this, is_zero;
    simpl; int_bounds.
  zcmp; unfold ret; first [reflexivity | repeat f_equal; lia].
Qed.

Lemma shared_ptr_deleter_ok (o : UnknownImpl) :
  refMutex o = false -> refStarted o = true -> 0 < refCountSharedPtr o ->
  shared_ptr_deleter o =
  Normal (if is_zero (refCountSharedPtr o - 1) && is_zero (refCountCom o)
          then Deleted
          else Alive (mkUnknownImpl (refCountCom o) (refCountSharedPtr o - 1)
                                    true false)).
Proof.
  destruct o as [c s st m]; simpl; intros -> -> Hs.
  unfold shared_ptr_deleter, lock, decr_int, assert, TryDelete, delete_this,
    is_zero; simpl; int_bounds.
  zcmp; unfold ret; first [reflexivity | repeat f_equal; lia].
Qed.

(** What a returning call has checked and done. *)
Lemma AddRef_inv (o : UnknownImpl) (r : Z * UnknownImpl) :
  AddRef o = Normal r ->
  r = (refCountCom o + 1, acquired o) /\
  refMutex o = false /\
  refCountCom o < INT_MAX /\
  (if refStarted o then 0 < refCountCom o + refCountSharedPtr o
   else refCountCom o + refCountSharedPtr o = 0).
Proof.
  destruct o as [c s st m].
  unfold AddRef, lock, assertAddReference, add_int, incr_int, assert; simpl.
  intros H. destruct m; [discriminate H |].
  destruct st; zcmp_in H; try discriminate H.
  all: inversion H; subst; auto.
Qed.

Lemma shared_ptr_inv (o o' : UnknownImpl) :
  shared_ptr o = Normal o' ->
  o' = mkUnknownImpl (refCountCom o) (refCountSharedPtr o + 1) true false /\
  refMutex o = false /\
  refCountSharedPtr o < INT_MAX /\
  (if refStarted o then 0 < refCountCom o + refCountSharedPtr o
   else refCountCom o + refCountSharedPtr o = 0).
Proof.
  destruct o as [c s st m].
  unfold shared_ptr, lock, assertAddReference, add_int, incr_int, assert; simpl.
  intros H. destruct m; [discriminate H |].
  destruct st; zcmp_in H; try discriminate H.
  all: inversion H; subst; auto.
Qed.

Lemma Release_inv (o : UnknownImpl) (r : Z * lifetime) :
  Release o = Normal r ->
  refMutex o = false /\ refStarted o = true /\ 0 < refCountCom o.
Proof.
  destruct o as [c s st m]. unfold Release, lock, assert; simpl.
  intros H. destruct m; [discriminate H |].
  destruct st; zcmp_in H; try discriminate H. auto.
Qed.

Lemma shared_ptr_deleter_inv (o : UnknownImpl) (l : lifetime) :
  shared_ptr_deleter o = Normal l ->
  refMutex o = false /\ refStarted o = true /\ 0 < refCountSharedPtr o.
Proof.
  destruct o as [c s st m]. unfold shared_ptr_deleter, lock, assert; simpl.
  intros H. destruct m; [discriminate H |].
  destruct st; zcmp_in H; try discriminate H. auto.
Qed.

Lemma AddRef_invariant (o : UnknownImpl) (r : Z * UnknownImpl) :
  invariant o -> AddRef o = Normal r ->
  invariant (snd r) /\ refStarted (snd r) = true.
Proof.
  intros (Hc & Hs & _) H. apply AddRef_inv in H as (-> & _ & _).
  unfold invariant; simpl. repeat split; try lia; discriminate.
Qed.

Lemma shared_ptr_invariant (o o' : UnknownImpl) :
  invariant o -> shared_ptr o = Normal o' ->
  invariant o' /\ refStarted o' = true.
Proof.
  intros (Hc & Hs & _) H. apply shared_ptr_inv in H as (-> & _ & _).
  unfold invariant; simpl. repeat split; try lia; discriminate.
Qed.

Lemma both_zero_cases (c s : Z) :
  0 <= c -> 0 <= s ->
  is_zero c && is_zero s = true /\ c = 0 /\ s = 0 \/
  is_zero c && is_zero s = false /\ 0 < c + s.
Proof.
  intros Hc Hs. unfold is_zero.
  destruct (Z.eqb_spec c 0), (Z.eqb_spec s 0); simpl; [left | right ..];
    repeat split; auto; lia.
Qed.

Lemma Release_invariant (o : UnknownImpl) (r : Z * lifetime) :
  invariant o -> Release o = Normal r ->
  snd r = Deleted \/
  exists o', snd r = Alive o' /\ invariant o' /\ refStarted o' = true.
Proof.
  intros (Hc & Hs & _) H. destruct (Release_inv _ _ H) as (Hm & Hst & Hpos).
  rewrite Release_ok in H by assumption. inversion H; subst r; clear H. simpl.
  destruct (both_zero_cases (refCountCom o - 1) (refCountSharedPtr o))
    as [(-> & _) | (-> & Hsum)]; try lia; [now left | right].
  eexists; split; [reflexivity |].
  unfold invariant; simpl. repeat split; try lia; discriminate.
Qed.

Lemma shared_ptr_deleter_invariant (o : UnknownImpl) (l : lifetime) :
  invariant o -> shared_ptr_deleter o = Normal l ->
  l = Deleted \/
  exists o', l = Alive o' /\ invariant o' /\ refStarted o' = true.
Proof.
  intros (Hc & Hs & _) H.
  destruct (shared_ptr_deleter_inv _ _ H) as (Hm & Hst & Hpos).
  rewrite shared_ptr_deleter_ok in H by assumption. inversion H; subst l; clear H.
  destruct (both_zero_cases (refCountSharedPtr o - 1) (refCountCom o))
    as [(-> & _) | (-> & Hsum)]; try lia; [now left | right].
  eexists; split; [reflexivity |].
  unfold invariant; simpl. repeat split; try lia; discriminate.
Qed.

(* ------------------------------------------------------------------------- *)
(** ** Interface lookup                                                      *)
(* ------------------------------------------------------------------------- *)

Lemma memcmp_refl (a : list Z) (n : nat) : memcmp a a n = 0.
Proof.
  revert a; induction n as [| n IH]; intros [| x a]; simpl; auto.
  rewrite Z.eqb_refl. apply IH.
Qed.

Lemma guid_eq_refl (g : GUID) : (g == g) = true.
Proof. unfold guid_eq. now rewrite memcmp_refl. Qed.

(** [operator ==] is equality of the members. *)
Lemma le_bytes_length (n : nat) (z : Z) : List.length (le_bytes n z) = n.
Proof. revert z; induction n; simpl; auto. Qed.

Lemma le_bytes_inj (n : nat) :
  forall a b, 0 <= a < 256 ^ Z.of_nat n -> 0 <= b < 256 ^ Z.of_nat n ->
              le_bytes n a = le_bytes n b -> a = b.
Proof.
  induction n as [| n IH]; intros a b Ha Hb H.
  - simpl in Ha, Hb. lia.
  - rewrite Nat2Z.inj_succ, Z.pow_succ_r in Ha, Hb by lia.
    simpl in H. inversion H as [[Hlow Hhigh]].
    apply IH in Hhigh;
      [| split; [apply Z.div_pos | apply Z.div_lt_upper_bound]; lia ..].
    rewrite (Z.div_mod a 256), (Z.div_mod b 256) by lia. congruence.
Qed.

Lemma memcmp_eq (n : nat) :
  forall a b, List.length a = n -> List.length b = n ->
              memcmp a b n = 0 -> a = b.
Proof.
  induction n as [| n IH]; intros [| x a] [| y b]; simpl; try discriminate; auto.
  intros Ha Hb. destruct (Z.eqb_spec x y) as [-> | Hxy]; [| lia].
  intros H. f_equal. apply IH; auto.
Qed.

Lemma app_inj_length (A : Type) (l1 l1' l2 l2' : list A) :
  List.length l1 = List.length l1' -> l1 ++ l2 = l1' ++ l2' ->
  l1 = l1' /\ l2 = l2'.
Proof.
  revert l1'; induction l1 as [| x l1 IH]; intros [| y l1']; simpl;
    try discriminate; auto.
  intros Hlen H. inversion H; subst. destruct (IH l1') as [-> ->]; auto.
Qed.

Lemma map_to_uchar_bytes (l : list Z) :
  Forall (fun b => 0 <= b < 2 ^ 8) l -> map to_uchar l = l.
Proof.
  induction 1 as [| b l Hb _ IH]; cbn [map]; [reflexivity |].
  unfold to_uchar at 1. rewrite Z.mod_small by assumption. now rewrite IH.
Qed.

Lemma well_formed_Data4 (g : GUID) :
  well_formed g -> map to_uchar (firstn 8 (Data4 g)) = Data4 g.
Proof.
  intros (_ & _ & _ & Hlen & Hall).
  rewrite <- Hlen, firstn_all. now apply map_to_uchar_bytes.
Qed.

Lemma guid_eq_true_iff (a b : GUID) :
  well_formed a -> well_formed b -> ((a == b) = true <-> a = b).
Proof.
  intros Ha Hb. split; [| intros ->; apply guid_eq_refl].
  unfold guid_eq. rewrite Z.eqb_eq. intros H.
  apply memcmp_eq in H.
  - unfold guid_bytes in H.
    rewrite (well_formed_Data4 a Ha), (well_formed_Data4 b Hb) in H.
    apply app_inj_length in H as [H1 H]; [| now rewrite !le_bytes_length].
    apply app_inj_length in H as [H2 H]; [| now rewrite !le_bytes_length].
    apply app_inj_length in H as [H3 H4]; [| now rewrite !le_bytes_length].
    destruct Ha as (A1 & A2 & A3 & _), Hb as (B1 & B2 & B3 & _).
    apply le_bytes_inj in H1, H2, H3; try (simpl; lia).
    destruct a, b; simpl in *; congruence.
  - unfold guid_bytes, sizeof_GUID.
    rewrite !length_app, !le_bytes_length, (well_formed_Data4 a Ha).
    destruct Ha as (_ & _ & _ & -> & _). reflexivity.
  - unfold guid_bytes, sizeof_GUID.
    rewrite !length_app, !le_bytes_length, (well_formed_Data4 b Hb).
    destruct Hb as (_ & _ & _ & -> & _). reflexivity.
Qed.

Section LookupFacts.

Variable Interfaces : list descriptor.

Lemma QueryInterfaceImpl_unfold I1 IRest o guid pvObject :
  QueryInterfaceImpl I1 IRest o guid pvObject =
  if guid == d_guid I1 then
    r <- AddRef o ;; ret (true, this_as (d_interface I1), snd r)
  else
    match IRest with
    | I2 :: IRest' => QueryInterfaceImpl I2 IRest' o guid pvObject
    | [] => ret (false, pvObject, o)
    end.
Proof. destruct IRest; reflexivity. Qed.

(** The recursion is a scan for the first descriptor that compares equal. *)
Lemma QueryInterfaceImpl_find I1 IRest o guid pvObject :
  QueryInterfaceImpl I1 IRest o guid pvObject =
  match find (fun d => guid == d_guid d) (I1 :: IRest) with
  | Some d => r <- AddRef o ;; ret (true, this_as (d_interface d), snd r)
  | None => ret (false, pvObject, o)
  end.
Proof.
  revert I1; induction IRest as [| I2 IRest' IH]; intros I1;
    rewrite QueryInterfaceImpl_unfold; cbn [find];
    destruct (guid == d_guid I1); auto.
Qed.

Lemma QueryInterface_find o guid pvObject :
  QueryInterface Interfaces o (Some guid) (Some pvObject) =
  match find (fun d => guid == d_guid d) (IUnknown_descriptor :: Interfaces) with
  | Some d =>
      r <- AddRef o ;; ret (S_OK, Some (this_as (d_interface d)), snd r)
  | None => ret (E_NOINTERFACE, Some pvObject, o)
  end.
Proof.
  unfold QueryInterface. rewrite QueryInterfaceImpl_find.
  destruct (find _ _); [| reflexivity].
  destruct (AddRef o) as [[c o'] |]; reflexivity.
Qed.

(** A lookup leaves the object as it was or as [AddRef] leaves it. *)
Lemma QueryInterface_object o pguid ppvObject r :
  QueryInterface Interfaces o pguid ppvObject = Normal r ->
  snd r = o \/ exists r', AddRef o = Normal r' /\ snd r = snd r'.
Proof.
  destruct pguid as [guid |], ppvObject as [pv |];
    try (intros H; inversion H; now left).
  rewrite QueryInterface_find. destruct (find _ _).
  - destruct (AddRef o) as [r' |]; simpl; intros H; inversion H.
    right; eauto.
  - intros H; inversion H; now left.
Qed.

End LookupFacts.

Lemma find_first_match (guid : GUID) (pre : list descriptor) (d : descriptor)
    (post : list descriptor) :
  no_match guid pre = true -> (guid == d_guid d) = true ->
  find (fun e => guid == d_guid e) (pre ++ d :: post) = Some d.
Proof.
  induction pre as [| e pre IH]; simpl; intros Hpre Hd.
  - now rewrite Hd.
  - apply andb_prop in Hpre as [He Hpre].
    apply negb_true_iff in He. rewrite He. auto.
Qed.

Lemma find_no_match (guid : GUID) (ds : list descriptor) :
  no_match guid ds = true -> find (fun e => guid == d_guid e) ds = None.
Proof.
  induction ds as [| e ds IH]; simpl; auto. intros H.
  apply andb_prop in H as [He H]. apply negb_true_iff in He. rewrite He. auto.
Qed.

Lemma first_match (guid : GUID) (ds : list descriptor) (d : descriptor) :
  In d ds -> (guid == d_guid d) = true ->
  exists pre m post,
    ds = pre ++ m :: post /\ no_match guid pre = true /\
    (guid == d_guid m) = true.
Proof.
  induction ds as [| e ds IH]; intros Hin Hd; [contradiction |].
  destruct (guid == d_guid e) eqn:He.
  - exists [], e, ds. auto.
  - destruct Hin as [-> | Hin]; [congruence |].
    destruct (IH Hin Hd) as (pre & m & post & -> & Hpre & Hm).
    exists (e :: pre), m, post. simpl. rewrite He. auto.
Qed.

(** ** Instantiation *)

Lemma __guid_IUnknown (char_signed : bool) :
  __guid char_signed IUnknown = Some IID_IUnknown.
Proof. destruct char_signed; vm_compute; reflexivity. Qed.

Lemma descriptors_interfaces (char_signed : bool) (Is : list interface) :
  forall ds, descriptors char_signed Is = Some ds -> map d_interface ds = Is.
Proof.
  induction Is as [| I1 IRest IH]; simpl; intros ds H.
  - now inversion H.
  - destruct (__guid char_signed I1); [| discriminate].
    destruct (descriptors char_signed IRest) as [ds' |]; [| discriminate].
    inversion H; subst; simpl. now rewrite (IH ds').
Qed.

Lemma descriptors_accepts (char_signed : bool) (Is : list interface) :
  descriptors char_signed Is <> None <->
  (forall J, In J Is -> __guid char_signed J <> None).
Proof.
  induction Is as [| I1 IRest IH]; simpl.
  - split; [intros _ J [] | discriminate].
  - destruct (__guid char_signed I1) as [g |] eqn:Hg.
    + destruct (descriptors char_signed IRest) as [ds |].
      * split; [| discriminate]. intros _ J [<- | HJ].
        -- rewrite Hg; discriminate.
        -- apply IH; [discriminate | assumption].
      * split; [intros H; now elim H |]. intros H.
        apply IH. intros J HJ. apply H. now right.
    + split; [intros H; now elim H |]. intros H.
      elim (H I1); auto.
Qed.

Lemma distinct_bases_later (l1 : list interface) (A : interface)
    (l2 : list interface) (B : interface) (l3 : list interface) :
  distinct_bases (l1 ++ A :: l2 ++ B :: l3) = true -> A <> B.
Proof.
  induction l1 as [| x l1 IH]; simpl; intros H.
  - apply andb_prop in H as [H _]. apply negb_true_iff in H.
    intros ->. rewrite existsb_app in H. simpl in H.
    rewrite String.eqb_refl in H. rewrite orb_true_r in H. discriminate.
  - apply andb_prop in H as [_ H]. auto.
Qed.

(* ------------------------------------------------------------------------- *)
(** ** Claims on interface lookup                                            *)
(* ------------------------------------------------------------------------- *)

(** C7: [QueryInterface] called with a null identifier pointer or a null
    slot pointer returns [E_POINTER]; the slot keeps what it held and the
    object, with both of its counters, is what it was. *)
Theorem QueryInterface_null_arguments :
  forall (Interfaces : list descriptor) (o : UnknownImpl),
    (forall ppvObject,
        QueryInterface Interfaces o None ppvObject
        = Normal (E_POINTER, ppvObject, o)) /\
    (forall pguid,
        QueryInterface Interfaces o pguid None = Normal (E_POINTER, None, o)) /\
    (forall pguid ppvObject,
        pguid = None \/ ppvObject = None ->
        step Interfaces (CallQueryInterface pguid ppvObject) (Alive o)
        = Normal (Alive o)) /\
    SafeResult_value E_POINTER = 0x80004003.
Proof.
  intros Interfaces o. repeat split.
  - intros pguid. now destruct pguid.
  - intros pguid ppvObject [-> | ->]; simpl; [| destruct pguid]; reflexivity.
Qed.

Lemma QueryInterface_null_arguments_witness :
  step [] (CallQueryInterface None (Some nullptr)) (Alive new_UnknownImpl)
  = Normal (Alive new_UnknownImpl).
Proof.
  apply (QueryInterface_null_arguments [] new_UnknownImpl). left; reflexivity.
Defined.

(** C4: [QueryInterface] scans [IUnknown, Interfaces...] in that order.
    The first descriptor that compares equal to the queried identifier
    decides the call, whatever follows it in the registry: the slot gets
    the object narrowed to that interface and the call is [AddRef]
    followed by the return of [S_OK].  When no descriptor compares equal
    the call returns [E_NOINTERFACE]; slot and object are what they were. *)
Theorem QueryInterface_first_match_wins :
  forall (Interfaces : list descriptor) (o : UnknownImpl)
         (guid : GUID) (pvObject : pointer),
    QueryInterface Interfaces o (Some guid) (Some pvObject) =
    match find (fun d => guid == d_guid d) (IUnknown_descriptor :: Interfaces) with
    | Some d =>
        r <- AddRef o ;; ret (S_OK, Some (this_as (d_interface d)), snd r)
    | None => Normal (E_NOINTERFACE, Some pvObject, o)
    end /\
    (forall pre d post,
        IUnknown_descriptor :: Interfaces = pre ++ d :: post ->
        no_match guid pre = true -> (guid == d_guid d) = true ->
        invariant o -> refCountCom o + refCountSharedPtr o < INT_MAX ->
        QueryInterface Interfaces o (Some guid) (Some pvObject)
        = Normal (S_OK, Some (this_as (d_interface d)), acquired o)) /\
    (no_match guid (IUnknown_descriptor :: Interfaces) = true ->
     QueryInterface Interfaces o (Some guid) (Some pvObject)
     = Normal (E_NOINTERFACE, Some pvObject, o)) /\
    ((guid == IID_IUnknown) = true ->
     invariant o -> refCountCom o + refCountSharedPtr o < INT_MAX ->
     QueryInterface Interfaces o (Some guid) (Some pvObject)
     = Normal (S_OK, Some (this_as IUnknown), acquired o)) /\
    SafeResult_value E_NOINTERFACE = 0x80004002.
Proof.
  intros Interfaces o guid pvObject.
  rewrite QueryInterface_find.
  split; [| split; [| split; [| split]]].
  - reflexivity.
  - intros pre d post -> Hpre Hd Hinv Hmax.
    now rewrite find_first_match, (AddRef_ok o Hinv Hmax).
  - intros Hnone. now rewrite find_no_match.
  - intros Hd Hinv Hmax. cbn [find IUnknown_descriptor d_guid].
    now rewrite Hd, (AddRef_ok o Hinv Hmax).
  - reflexivity.
Qed.

Lemma QueryInterface_first_match_wins_witness :
  QueryInterface [mkDescriptor IFoo IID_IFoo; mkDescriptor IBar IID_IFoo]
                 new_UnknownImpl (Some IID_IFoo) (Some nullptr)
  = Normal (S_OK, Some (this_as IFoo), mkUnknownImpl 1 0 true false).
Proof.
  refine (proj1 (proj2 (QueryInterface_first_match_wins
                          [mkDescriptor IFoo IID_IFoo; mkDescriptor IBar IID_IFoo]
                          new_UnknownImpl IID_IFoo nullptr))
                [IUnknown_descriptor] (mkDescriptor IFoo IID_IFoo)
                [mkDescriptor IBar IID_IFoo] _ _ _ _ _).
  - reflexivity.
  - vm_compute; reflexivity.
  - vm_compute; reflexivity.
  - unfold invariant; simpl. repeat split; try lia; discriminate.
  - vm_compute; reflexivity.
Defined.

(** C3, as stated, fails where an earlier entry of the registry has the
    same identifier: in [UnknownImpl<IFoo, IBar>], which compiles, the
    identifier of [IBar] is that of an interface of the registry, and the
    lookup writes the object narrowed to [IFoo] into the slot, not the
    object narrowed to [IBar]. *)
Lemma QueryInterface_narrows_to_an_earlier_entry :
  instantiate true [IFoo; IBar]
  = Some (IUnknown_descriptor
          :: [mkDescriptor IFoo IID_IFoo; mkDescriptor IBar IID_IFoo]) /\
  In (mkDescriptor IBar IID_IFoo)
     (IUnknown_descriptor
      :: [mkDescriptor IFoo IID_IFoo; mkDescriptor IBar IID_IFoo]) /\
  (IID_IFoo == d_guid (mkDescriptor IBar IID_IFoo)) = true /\
  QueryInterface [mkDescriptor IFoo IID_IFoo; mkDescriptor IBar IID_IFoo]
                 new_UnknownImpl (Some IID_IFoo) (Some nullptr)
  = Normal (S_OK, Some (this_as IFoo), mkUnknownImpl 1 0 true false) /\
  this_as IFoo <> this_as (d_interface (mkDescriptor IBar IID_IFoo)).
Proof.
  split; [vm_compute; reflexivity |]. split; [simpl; auto |].
  split; [vm_compute; reflexivity |]. split; [vm_compute; reflexivity |].
  discriminate.
Qed.

(** C3, amended: for every identifier that is the identifier of an
    interface of the registry, a lookup on an object whose counters have
    room for one more reference returns [S_OK], increments [refCountCom]
    by exactly 1 and writes into the slot the object narrowed to the first
    interface of the registry, [IUnknown] and then the declared ones in
    their order, that has the identifier; that is the interface asked
    for whenever no earlier one shares its identifier. *)
Theorem QueryInterface_found :
  forall (Interfaces : list descriptor) (o : UnknownImpl) (pvObject : pointer)
         (guid : GUID) (d : descriptor),
    In d (IUnknown_descriptor :: Interfaces) ->
    (guid == d_guid d) = true ->
    invariant o ->
    refCountCom o + refCountSharedPtr o < INT_MAX ->
    exists (pre : list descriptor) (m : descriptor) (post : list descriptor)
           (o' : UnknownImpl),
      IUnknown_descriptor :: Interfaces = pre ++ m :: post /\
      no_match guid pre = true /\
      (guid == d_guid m) = true /\
      QueryInterface Interfaces o (Some guid) (Some pvObject)
      = Normal (S_OK, Some (this_as (d_interface m)), o') /\
      refCountCom o' = refCountCom o + 1 /\
      refCountSharedPtr o' = refCountSharedPtr o /\
      refStarted o' = true /\
      SafeResult_value S_OK = 0 /\
      (forall pre' post',
          IUnknown_descriptor :: Interfaces = pre' ++ d :: post' ->
          no_match guid pre' = true -> m = d).
Proof.
  intros Interfaces o pvObject guid d Hin Hd Hinv Hmax.
  destruct (first_match guid _ d Hin Hd) as (pre & m & post & Hreg & Hpre & Hm).
  pose proof (find_first_match guid pre m post Hpre Hm) as F1.
  rewrite <- Hreg in F1.
  exists pre, m, post, (acquired o).
  rewrite QueryInterface_find, (AddRef_ok o Hinv Hmax), F1.
  repeat (split; [first [assumption | reflexivity] |]).
  intros pre' post' Hreg' Hpre'.
  pose proof (find_first_match guid pre' d post' Hpre' Hd) as F2.
  rewrite <- Hreg' in F2. congruence.
Qed.

Lemma QueryInterface_found_witness :
  exists (pre : list descriptor) (m : descriptor) (post : list descriptor)
         (o' : UnknownImpl),
    IUnknown_descriptor :: [mkDescriptor IFoo IID_IFoo] = pre ++ m :: post /\
    no_match IID_IFoo pre = true /\
    (IID_IFoo == d_guid m) = true /\
    QueryInterface [mkDescriptor IFoo IID_IFoo] (mkUnknownImpl 2 1 true false)
                   (Some IID_IFoo) (Some (address 0))
    = Normal (S_OK, Some (this_as (d_interface m)), o') /\
    refCountCom o' = 2 + 1 /\
    refCountSharedPtr o' = 1 /\
    refStarted o' = true /\
    SafeResult_value S_OK = 0 /\
    (forall pre' post',
        IUnknown_descriptor :: [mkDescriptor IFoo IID_IFoo]
        = pre' ++ mkDescriptor IFoo IID_IFoo :: post' ->
        no_match IID_IFoo pre' = true -> m = mkDescriptor IFoo IID_IFoo).
Proof.
  apply (QueryInterface_found
           [mkDescriptor IFoo IID_IFoo] (mkUnknownImpl 2 1 true false) (address 0)
           IID_IFoo (mkDescriptor IFoo IID_IFoo)).
  - simpl; auto.
  - vm_compute; reflexivity.
  - unfold invariant; simpl. repeat split; try lia; discriminate.
  - vm_compute; reflexivity.
Defined.

(** C9, as stated, fails: nothing rejects two interfaces declared with
    one identifier.  [UnknownImpl<IFoo, IBar>] compiles, and the lookup of
    the shared identifier is answered with the first of them. *)
Lemma shared_identifier_is_not_rejected :
  __guid false IFoo = __guid false IBar /\
  instantiate false [IFoo; IBar] <> None /\
  (forall ds,
      instantiate false [IFoo; IBar] = Some (IUnknown_descriptor :: ds) ->
      QueryInterface ds new_UnknownImpl (Some IID_IFoo) (Some nullptr)
      = Normal (S_OK, Some (this_as IFoo), mkUnknownImpl 1 0 true false)).
Proof.
  repeat split.
  - vm_compute; discriminate.
  - intros ds H. vm_compute in H. inversion H; subst ds.
    vm_compute; reflexivity.
Qed.

(** C9, amended: two registry entries that share an identifier are
    accepted: the instantiation compiles exactly when the base classes
    are distinct types and every identifier text parses.  At lookup the
    shared identifier is answered with the earlier entry, and never with
    the later one. *)
Theorem shared_identifier_resolves_to_first :
  forall (char_signed : bool) (Interfaces : list interface),
    (instantiate char_signed Interfaces <> None <->
     distinct_bases (IUnknown :: Interfaces) = true /\
     forall J, In J Interfaces -> __guid char_signed J <> None) /\
    (forall (ds pre : list descriptor) (A : descriptor) (mid : list descriptor)
            (B : descriptor) (post : list descriptor)
            (o : UnknownImpl) (pvObject : pointer),
        instantiate char_signed Interfaces = Some (IUnknown_descriptor :: ds) ->
        IUnknown_descriptor :: ds = pre ++ A :: mid ++ B :: post ->
        no_match (d_guid B) pre = true ->
        (d_guid B == d_guid A) = true ->
        invariant o ->
        refCountCom o + refCountSharedPtr o < INT_MAX ->
        QueryInterface ds o (Some (d_guid B)) (Some pvObject)
        = Normal (S_OK, Some (this_as (d_interface A)), acquired o) /\
        d_interface A <> d_interface B).
Proof.
  intros char_signed Interfaces. split.
  - unfold instantiate.
    destruct (distinct_bases (IUnknown :: Interfaces)).
    + rewrite descriptors_accepts. split.
      * intros H. split; [reflexivity |]. intros J HJ. apply H. now right.
      * intros [_ H] J [<- | HJ]; [| now apply H].
        rewrite __guid_IUnknown. discriminate.
    + split; [intros H; now elim H | intros [H _]; discriminate H].
  - intros ds pre A mid B post o pvObject Hinst Hreg Hpre HAB Hinv Hmax. split.
    + rewrite QueryInterface_find, (AddRef_ok o Hinv Hmax), Hreg.
      now rewrite find_first_match.
    + unfold instantiate in Hinst.
      destruct (distinct_bases (IUnknown :: Interfaces)) eqn:Hdist;
        [| discriminate].
      apply descriptors_interfaces in Hinst.
      rewrite Hreg, map_app in Hinst; cbn [map] in Hinst.
      rewrite map_app in Hinst; cbn [map] in Hinst.
      rewrite <- Hinst in Hdist.
      exact (distinct_bases_later _ _ _ _ _ Hdist).
Qed.

Lemma shared_identifier_resolves_to_first_witness :
  QueryInterface [mkDescriptor IFoo IID_IFoo; mkDescriptor IBar IID_IFoo]
                 new_UnknownImpl (Some IID_IFoo) (Some nullptr)
  = Normal (S_OK, Some (this_as IFoo), mkUnknownImpl 1 0 true false) /\
  IFoo <> IBar.
Proof.
  refine (proj2 (shared_identifier_resolves_to_first true [IFoo; IBar])
                [mkDescriptor IFoo IID_IFoo; mkDescriptor IBar IID_IFoo]
                [IUnknown_descriptor] (mkDescriptor IFoo IID_IFoo) []
                (mkDescriptor IBar IID_IFoo) []
                new_UnknownImpl nullptr _ _ _ _ _ _).
  - vm_compute; reflexivity.
  - reflexivity.
  - vm_compute; reflexivity.
  - vm_compute; reflexivity.
  - unfold invariant; simpl. repeat split; try lia; discriminate.
  - vm_compute; reflexivity.
Defined.

(* ------------------------------------------------------------------------- *)
(** ** Claims on the counters                                                *)
(* ------------------------------------------------------------------------- *)

(** C2, as stated, fails while a shared handle is outstanding: after
    [AddRef] and [shared_ptr] on a new object, [Release] is legal, returns
    0, and the object lives on. *)
Lemma Release_returns_zero_without_delete :
  run [] [CallAddRef; CallSharedPtr] (Alive new_UnknownImpl)
  = Normal (Alive (mkUnknownImpl 1 1 true false)) /\
  refStarted (mkUnknownImpl 1 1 true false) = true /\
  refCountCom (mkUnknownImpl 1 1 true false) > 0 /\
  Release (mkUnknownImpl 1 1 true false)
  = Normal (0, Alive (mkUnknownImpl 0 1 true false)) /\
  ~ (0 = 0 <-> Alive (mkUnknownImpl 0 1 true false) = Deleted).
Proof.
  repeat split; try reflexivity.
  intros [H _]. discriminate (H eq_refl).
Qed.

(** C2, amended: wherever [Release] is legally called (started, with
    [refCountCom > 0], the mutex free) it returns the remaining external
    count, so it returns 0 exactly when the last external reference went;
    the call destroys the object exactly when it returns 0 and no shared
    handle is outstanding. *)
Theorem Release_returns_remaining_count :
  forall o : UnknownImpl,
    refStarted o = true ->
    refCountCom o > 0 ->
    refMutex o = false ->
    exists l,
      Release o = Normal (refCountCom o - 1, l) /\
      (l = Deleted <-> refCountCom o - 1 = 0 /\ refCountSharedPtr o = 0) /\
      (l <> Deleted ->
       l = Alive (mkUnknownImpl (refCountCom o - 1) (refCountSharedPtr o)
                                true false)).
Proof.
  intros o Hst Hpos Hm. rewrite Release_ok by (auto; lia).
  eexists; split; [reflexivity |]. unfold is_zero.
  destruct (Z.eqb_spec (refCountCom o - 1) 0) as [Hc | Hc];
    destruct (Z.eqb_spec (refCountSharedPtr o) 0) as [Hs | Hs]; simpl.
  all: split; [split; [intros H; try discriminate H; auto | intros [? ?]; auto; lia]
              | intros H; auto; now elim H].
Qed.

Lemma Release_returns_remaining_count_witness :
  exists l,
    Release (mkUnknownImpl 1 0 true false) = Normal (1 - 1, l) /\
    (l = Deleted <-> 1 - 1 = 0 /\ 0 = 0) /\
    (l <> Deleted -> l = Alive (mkUnknownImpl (1 - 1) 0 true false)).
Proof.
  apply (Release_returns_remaining_count (mkUnknownImpl 1 0 true false)).
  - reflexivity.
  - simpl; lia.
  - reflexivity.
Defined.

Section Counting.

Variable Interfaces : list descriptor.

Lemma step_invariant (c : call) (o : UnknownImpl) (l : lifetime) :
  invariant o -> step Interfaces c (Alive o) = Normal l ->
  l = Deleted \/
  exists o', l = Alive o' /\ invariant o' /\
             (refStarted o = true -> refStarted o' = true).
Proof.
  intros Hinv H. destruct c; simpl in H.
  - destruct (QueryInterface Interfaces o pguid ppvObject) as [r |] eqn:Hq;
      [| discriminate H].
    inversion H; subst l; clear H. right. eexists; split; [reflexivity |].
    destruct (QueryInterface_object _ _ _ _ _ Hq) as [-> | (r' & Hr' & ->)].
    + auto.
    + destruct (AddRef_invariant _ _ Hinv Hr'); auto.
  - destruct (AddRef o) as [r |] eqn:Hr; [| discriminate H].
    inversion H; subst l; clear H. right. eexists; split; [reflexivity |].
    destruct (AddRef_invariant _ _ Hinv Hr); auto.
  - destruct (Release o) as [r |] eqn:Hr; [| discriminate H].
    inversion H; subst l; clear H.
    destruct (Release_invariant _ _ Hinv Hr) as [-> | (o' & -> & ? & ?)];
      [now left | right; eauto].
  - destruct (shared_ptr o) as [o' |] eqn:Hr; [| discriminate H].
    inversion H; subst l; clear H. right. eexists; split; [reflexivity |].
    destruct (shared_ptr_invariant _ _ Hinv Hr); auto.
  - destruct (shared_ptr_deleter_invariant _ _ Hinv H)
      as [-> | (o' & -> & ? & ?)]; [now left | right; eauto].
Qed.

Lemma run_invariant (cs : list call) :
  forall l l', lifetime_invariant l -> run Interfaces cs l = Normal l' ->
               lifetime_invariant l'.
Proof.
  induction cs as [| c cs IH]; simpl; intros l l' Hinv H.
  - now inversion H; subst.
  - destruct l as [o |]; [| discriminate H].
    destruct (step Interfaces c (Alive o)) as [l1 |] eqn:Hs; [| discriminate H].
    simpl in H. apply (IH l1 l'); auto.
    destruct (step_invariant _ _ _ Hinv Hs) as [-> | (o' & -> & ? & _)];
      simpl; auto.
Qed.

Lemma run_app (cs1 cs2 : list call) (l : lifetime) :
  run Interfaces (cs1 ++ cs2) l = (l' <- run Interfaces cs1 l ;; run Interfaces cs2 l').
Proof.
  revert l; induction cs1 as [| c cs1 IH]; simpl; intros l; auto.
  destruct (step Interfaces c l); simpl; auto.
Qed.

Lemma run_Deleted (cs : list call) (l : lifetime) :
  run Interfaces cs Deleted = Normal l -> cs = [] /\ l = Deleted.
Proof. destruct cs; simpl; intros H; inversion H; auto. Qed.

Lemma deletions_none (cs : list call) :
  forall l o, run Interfaces cs l = Normal (Alive o) ->
              deletions Interfaces cs l = 0%nat.
Proof.
  induction cs as [| c cs IH]; cbn [run deletions]; intros l o H; auto.
  destruct l as [o0 |]; [| discriminate H].
  destruct (step Interfaces c (Alive o0)) as [l1 |]; [| discriminate H].
  cbn [bind] in H. destruct l1 as [o1 |].
  - eapply IH; eassumption.
  - apply run_Deleted in H as [_ H]. discriminate H.
Qed.

Lemma deletions_app (cs1 cs2 : list call) :
  forall l l', run Interfaces cs1 l = Normal l' ->
               deletions Interfaces (cs1 ++ cs2) l
               = (deletions Interfaces cs1 l + deletions Interfaces cs2 l')%nat.
Proof.
  induction cs1 as [| c cs1 IH]; cbn [run deletions app]; intros l l' H.
  - now inversion H.
  - destruct l as [o0 |]; [| discriminate H].
    destruct (step Interfaces c (Alive o0)) as [l1 |]; [| discriminate H].
    cbn [bind] in H. destruct l1; rewrite (IH _ _ H); reflexivity.
Qed.

(** [delete this] runs in the decrement that leaves both counters at zero
    and nowhere else. *)
Lemma step_Deleted_iff (c : call) (o : UnknownImpl) :
  step Interfaces c (Alive o) = Normal Deleted <-> last_release c o.
Proof.
  unfold last_release. split.
  - intros H. destruct c; simpl in H.
    + destruct (QueryInterface Interfaces o pguid ppvObject); inversion H.
    + destruct (AddRef o); inversion H.
    + destruct (Release o) as [r |] eqn:Hr; [| discriminate H].
      destruct (Release_inv _ _ Hr) as (Hm & Hst & Hpos).
      rewrite Release_ok in Hr by assumption.
      inversion Hr; subst r; clear Hr. simpl in H. unfold is_zero in H.
      split; [assumption |]. split; [assumption |]. left. split; [reflexivity |].
      destruct (Z.eqb_spec (refCountCom o - 1) 0);
        destruct (Z.eqb_spec (refCountSharedPtr o) 0);
        simpl in H; try discriminate H. split; auto; lia.
    + destruct (shared_ptr o); inversion H.
    + destruct (shared_ptr_deleter_inv _ _ H) as (Hm & Hst & Hpos).
      rewrite shared_ptr_deleter_ok in H by assumption.
      unfold is_zero in H.
      split; [assumption |]. split; [assumption |]. right. split; [reflexivity |].
      destruct (Z.eqb_spec (refCountSharedPtr o - 1) 0);
        destruct (Z.eqb_spec (refCountCom o) 0);
        simpl in H; try discriminate H. split; auto; lia.
  - intros (Hm & Hst & [(-> & Hc & Hs) | (-> & Hc & Hs)]); simpl.
    + rewrite Release_ok by (auto; lia). rewrite Hc, Hs. reflexivity.
    + rewrite shared_ptr_deleter_ok by (auto; lia). rewrite Hc, Hs. reflexivity.
Qed.

End Counting.

(** C8: in every state the calls can reach from a new object, the
    counters are zero while [refStarted] is false, and once [refStarted]
    is true their sum is positive (and the mutex is free, no counter
    negative); a call on a started object leaves it started, with a
    positive sum, unless it is the call that deletes it. *)
Theorem reachable_states_invariant :
  forall (Interfaces : list descriptor) (cs : list call) (l : lifetime),
    run Interfaces cs (Alive new_UnknownImpl) = Normal l ->
    (forall o, l = Alive o ->
       (refStarted o = false -> refCountCom o = 0 /\ refCountSharedPtr o = 0) /\
       (refStarted o = true -> refCountCom o + refCountSharedPtr o > 0) /\
       0 <= refCountCom o /\ 0 <= refCountSharedPtr o /\ refMutex o = false) /\
    (forall o c l',
       l = Alive o -> refStarted o = true ->
       step Interfaces c l = Normal l' ->
       l' = Deleted \/
       exists o', l' = Alive o' /\ refStarted o' = true /\
                  refCountCom o' + refCountSharedPtr o' > 0).
Proof.
  intros Interfaces cs l Hrun.
  assert (Hl : lifetime_invariant l).
  { apply (run_invariant Interfaces cs (Alive new_UnknownImpl) l); auto.
    unfold lifetime_invariant, invariant; simpl.
    repeat split; try lia; discriminate. }
  split.
  - intros o ->. destruct Hl as (Hc & Hs & Hn & Hp & Hm). auto 6.
  - intros o c l' -> Hst Hstep.
    destruct (step_invariant Interfaces _ _ _ Hl Hstep)
      as [-> | (o' & -> & Hinv' & Hst')]; [now left | right].
    exists o'. destruct Hinv' as (_ & _ & _ & Hp & _). auto.
Qed.

Lemma reachable_states_invariant_witness :
  (refStarted (mkUnknownImpl 1 1 true false) = false ->
   refCountCom (mkUnknownImpl 1 1 true false) = 0 /\
   refCountSharedPtr (mkUnknownImpl 1 1 true false) = 0) /\
  (refStarted (mkUnknownImpl 1 1 true false) = true ->
   refCountCom (mkUnknownImpl 1 1 true false)
   + refCountSharedPtr (mkUnknownImpl 1 1 true false) > 0) /\
  0 <= refCountCom (mkUnknownImpl 1 1 true false) /\
  0 <= refCountSharedPtr (mkUnknownImpl 1 1 true false) /\
  refMutex (mkUnknownImpl 1 1 true false) = false.
Proof.
  refine (proj1 (reachable_states_invariant
                   [] [CallAddRef; CallSharedPtr]
                   (Alive (mkUnknownImpl 1 1 true false)) _)
                (mkUnknownImpl 1 1 true false) eq_refl).
  vm_compute; reflexivity.
Defined.

(** ** Balanced sequences of calls *)

Lemma total_app (delta : refop -> Z) (p q : list refop) :
  total delta (p ++ q) = total delta p + total delta q.
Proof. induction p as [| x p IH]; simpl; [reflexivity | rewrite IH; ring]. Qed.

Lemma firstn_snoc (A : Type) (l : list A) :
  forall n, (n < List.length l)%nat ->
            exists x, firstn (S n) l = firstn n l ++ [x].
Proof.
  induction l as [| a l IH]; simpl; intros n Hn; [lia |].
  destruct n as [| n].
  - exists a. reflexivity.
  - destruct (IH n) as [x Hx]; [lia |]. exists x.
    change (firstn (S (S n)) (a :: l)) with (a :: firstn (S n) l).
    now rewrite Hx.
Qed.

Lemma held_bounds (p : list refop) :
  held p = true ->
  0 <= outstanding_external p /\ 0 <= outstanding_shared p /\
  0 < outstanding_external p + outstanding_shared p <= INT_MAX.
Proof.
  unfold held. intros H.
  repeat (apply andb_prop in H as [H ?]).
  rewrite ?Z.leb_le, ?Z.ltb_lt in *. lia.
Qed.

Lemma object_after_invariant (p : list refop) :
  p = [] \/ held p = true -> invariant (object_after p).
Proof.
  unfold invariant, object_after. intros [-> | H].
  - simpl. repeat split; try lia; discriminate.
  - apply held_bounds in H.
    assert (Hne : negb (Nat.eqb (List.length p) 0) = true).
    { destruct p; [cbn in H; lia | reflexivity]. }
    rewrite Hne. cbn [refCountCom refCountSharedPtr refStarted].
    repeat split; try lia; discriminate.
Qed.

Lemma object_after_snoc (p : list refop) (x : refop) :
  object_after (p ++ [x]) =
  mkUnknownImpl (outstanding_external p + external_delta x)
                (outstanding_shared p + shared_delta x) true false.
Proof.
  unfold object_after, outstanding_external, outstanding_shared.
  rewrite !total_app, length_app. simpl.
  rewrite !Z.add_0_r. f_equal.
  destruct (List.length p + 1)%nat eqn:E; [lia | reflexivity].
Qed.

Section Balanced.

Variable Interfaces : list descriptor.

(** One operation that leaves the object held. *)
Lemma step_held (p : list refop) (x : refop) :
  p = [] \/ held p = true -> held (p ++ [x]) = true ->
  step Interfaces (call_of x) (Alive (object_after p))
  = Normal (Alive (object_after (p ++ [x]))).
Proof.
  intros Hp Hpx.
  pose proof (object_after_invariant p Hp) as Hinv.
  assert (Hst : p <> [] -> refStarted (object_after p) = true).
  { destruct p; [congruence | reflexivity]. }
  assert (Hsum : outstanding_external p + outstanding_shared p <= INT_MAX).
  { destruct Hp as [-> | Hp]; [vm_compute; discriminate |].
    apply held_bounds in Hp. lia. }
  apply held_bounds in Hpx.
  unfold outstanding_external, outstanding_shared in Hpx.
  rewrite !total_app in Hpx. simpl in Hpx. rewrite !Z.add_0_r in Hpx.
  fold (outstanding_external p) (outstanding_shared p) in Hpx.
  rewrite object_after_snoc.
  destruct x; simpl in Hpx |- *.
  - rewrite AddRef_ok by (auto; simpl; lia). simpl.
    now rewrite Z.add_0_r.
  - assert (p <> []) by (intros ->; cbn in Hpx; lia).
    rewrite Release_ok by (auto; simpl; lia). simpl.
    unfold is_zero.
    destruct (Z.eqb_spec (outstanding_external p - 1) 0);
      destruct (Z.eqb_spec (outstanding_shared p) 0); simpl; try lia.
    all: now rewrite Z.add_0_r.
  - rewrite shared_ptr_ok by (auto; simpl; lia). simpl.
    now rewrite Z.add_0_r.
  - assert (p <> []) by (intros ->; cbn in Hpx; lia).
    rewrite shared_ptr_deleter_ok by (auto; simpl; lia). simpl.
    unfold is_zero.
    destruct (Z.eqb_spec (outstanding_shared p - 1) 0);
      destruct (Z.eqb_spec (outstanding_external p) 0); simpl; try lia.
    all: now rewrite Z.add_0_r.
Qed.

(** The counters follow the operations as long as the object is held. *)
Lemma run_held (ops : list refop) :
  forall n, (n <= List.length ops)%nat ->
    (forall k, (1 <= k <= n)%nat -> held (firstn k ops) = true) ->
    run Interfaces (map call_of (firstn n ops)) (Alive new_UnknownImpl)
    = Normal (Alive (object_after (firstn n ops))).
Proof.
  induction n as [| n IH]; intros Hn Hheld.
  - reflexivity.
  - destruct (firstn_snoc _ ops n) as [x Hx]; [lia |].
    rewrite Hx, map_app, run_app.
    rewrite IH by (try lia; intros; apply Hheld; lia).
    cbn [bind map run]. rewrite step_held.
    + reflexivity.
    + destruct n as [| n]; [now left | right; apply Hheld; lia].
    + rewrite <- Hx. apply Hheld; lia.
Qed.

End Balanced.

Lemma balanced_inv (ops : list refop) :
  balanced ops = true ->
  exists pre last,
    ops = pre ++ [last] /\
    (forall k, (1 <= k <= List.length pre)%nat -> held (firstn k pre) = true) /\
    outstanding_external pre + external_delta last = 0 /\
    outstanding_shared pre + shared_delta last = 0.
Proof.
  unfold balanced. intros H.
  repeat (apply andb_prop in H as [H ?]).
  apply negb_true_iff, Nat.eqb_neq in H.
  rewrite Z.eqb_eq in *. rewrite forallb_forall in *.
  destruct (firstn_snoc _ ops (List.length ops - 1)) as [x Hx]; [lia |].
  replace (S (List.length ops - 1)) with (List.length ops) in Hx by lia.
  rewrite firstn_all in Hx.
  exists (firstn (List.length ops - 1) ops), x.
  assert (Hlen : List.length (firstn (List.length ops - 1) ops)
                 = (List.length ops - 1)%nat).
  { rewrite length_firstn. lia. }
  split; [assumption |]. split; [| split].
  - intros k Hk. rewrite Hlen in Hk.
    rewrite firstn_firstn. replace (Nat.min k (List.length ops - 1)) with k by lia.
    match goal with Hf : forall n, In n _ -> _ |- _ => apply Hf end.
    apply in_seq. lia.
  - match goal with He : outstanding_external ops = 0 |- _ =>
      rewrite Hx in He; unfold outstanding_external in He |- *;
      rewrite total_app in He; simpl in He; lia end.
  - match goal with He : outstanding_shared ops = 0 |- _ =>
      rewrite Hx in He; unfold outstanding_shared in He |- *;
      rewrite total_app in He; simpl in He; lia end.
Qed.

(** A balanced sequence runs to its last operation on the live object,
    and that operation is the decrement that deletes it. *)
Lemma balanced_run (Interfaces : list descriptor) (ops : list refop) :
  balanced ops = true ->
  exists pre last o,
    ops = pre ++ [last] /\
    run Interfaces (map call_of pre) (Alive new_UnknownImpl) = Normal (Alive o) /\
    deletions Interfaces (map call_of pre) (Alive new_UnknownImpl) = 0%nat /\
    last_release (call_of last) o /\
    step Interfaces (call_of last) (Alive o) = Normal Deleted /\
    run Interfaces (map call_of ops) (Alive new_UnknownImpl) = Normal Deleted /\
    deletions Interfaces (map call_of ops) (Alive new_UnknownImpl) = 1%nat.
Proof.
  intros Hbal.
  destruct (balanced_inv ops Hbal) as (pre & x & -> & Hheld & Hext & Hsh).
  pose proof (run_held Interfaces pre (List.length pre) (le_n _)) as Hrun.
  rewrite firstn_all in Hrun. specialize (Hrun Hheld).
  assert (Hlast : last_release (call_of x) (object_after pre)).
  { destruct pre as [| y pre'].
    - destruct x; cbn in Hext, Hsh; lia.
    - specialize (Hheld (List.length (y :: pre')) ltac:(simpl; lia)).
      rewrite firstn_all in Hheld. apply held_bounds in Hheld.
      unfold last_release. split; [reflexivity |]. split; [reflexivity |].
      set (p := y :: pre') in *. unfold object_after.
      cbn [refCountCom refCountSharedPtr].
      destruct x; cbn [external_delta shared_delta call_of] in *;
        first [lia | left; repeat split; lia | right; repeat split; lia]. }
  pose proof (proj2 (step_Deleted_iff Interfaces _ _) Hlast) as Hstep.
  exists pre, x, (object_after pre).
  split; [reflexivity |]. split; [assumption |].
  split; [exact (deletions_none Interfaces _ _ _ Hrun) |].
  split; [assumption |]. split; [assumption |]. split.
  - rewrite map_app, run_app, Hrun. cbn [bind map run]. now rewrite Hstep.
  - rewrite map_app, (deletions_app Interfaces _ _ _ _ Hrun).
    rewrite (deletions_none Interfaces _ _ _ Hrun).
    cbn [map deletions]. now rewrite Hstep.
Qed.

(** Why a balanced sequence holds the object up to its last operation: a
    call that follows the release of the last reference is made on a
    deleted object, and a release without a reference fails its
    assertion. *)
Lemma call_after_last_release (Interfaces : list descriptor)
    (ops : list refop) (c : call) (rest : list call) :
  balanced ops = true ->
  run Interfaces (map call_of ops ++ c :: rest) (Alive new_UnknownImpl)
  = Fault UseAfterDelete.
Proof.
  intros Hbal.
  destruct (balanced_run Interfaces ops Hbal)
    as (pre & x & o & _ & _ & _ & _ & _ & H & _).
  rewrite run_app, H. reflexivity.
Qed.

Lemma release_without_reference (Interfaces : list descriptor)
    (p : list refop) (op : refop) (rest : list call) :
  (forall k, (1 <= k <= List.length p)%nat -> held (firstn k p) = true) ->
  op = releaseExternal /\ outstanding_external p = 0 \/
  op = releaseShared /\ outstanding_shared p = 0 ->
  run Interfaces (map call_of p ++ call_of op :: rest) (Alive new_UnknownImpl)
  = Fault AssertionFailed.
Proof.
  intros Hheld Hop.
  pose proof (run_held Interfaces p (List.length p) (le_n _)) as Hrun.
  rewrite firstn_all in Hrun. specialize (Hrun Hheld).
  rewrite run_app, Hrun. cbn [bind run].
  unfold object_after.
  destruct Hop as [[-> Hz] | [-> Hz]]; rewrite Hz; cbn [call_of step];
    unfold Release, shared_ptr_deleter, lock, assert; cbn;
    destruct (negb (Nat.eqb (List.length p) 0)); reflexivity.
Qed.

(* ------------------------------------------------------------------------- *)
(** ** Characters                                                            *)
(* ------------------------------------------------------------------------- *)

(** A property of bytes holds when it holds for each of the 256. *)
Lemma ascii_forall (P : ascii -> bool) :
  forallb P all_ascii = true -> forall c, P c = true.
Proof.
  intros H c. rewrite forallb_forall in H. apply H.
  unfold all_ascii. rewrite <- (ascii_nat_embedding c).
  apply in_map, in_seq. pose proof (nat_ascii_bounded c). lia.
Qed.

Lemma outcome_eqb_eq (a b : outcome bool) : outcome_eqb a b = true -> a = b.
Proof.
  destruct a as [x | []], b as [y | []]; simpl; try discriminate.
  - intros H. now apply Bool.eqb_prop in H as ->.
  - intros H. now apply Z.eqb_eq in H as ->.
Qed.

(** The hex digit case: a byte that is a negative [char] indexes the
    table below its first entry; any other byte is accepted exactly when
    it is a hex digit. *)
Lemma check_class_HexDigit (char_signed : bool) (c : ascii) :
  check_class (Some HexDigit) (char_value char_signed c) =
  if char_signed && (128 <=? char_code c)
  then Fault (TableOutOfBounds (char_code c - 256))
  else Normal (is_hex_digit c).
Proof.
  apply outcome_eqb_eq. revert c.
  destruct char_signed; apply ascii_forall; vm_compute; reflexivity.
Qed.

Lemma check_class_Hyphen (char_signed : bool) (c : ascii) :
  check_class (Some Hyphen) (char_value char_signed c) = Normal (Ascii.eqb c "-").
Proof.
  apply outcome_eqb_eq. revert c.
  destruct char_signed; apply ascii_forall; vm_compute; reflexivity.
Qed.

Lemma check_class_end (char_signed : bool) (c : ascii) :
  check_class None (char_value char_signed c) = Normal (char_code c =? 0).
Proof.
  apply outcome_eqb_eq. revert c.
  destruct char_signed; apply ascii_forall; vm_compute; reflexivity.
Qed.

Lemma hex2bin_of_digit (char_signed : bool) (c : ascii) :
  is_hex_digit c = true ->
  hex2bin_at (char_value char_signed c) = Normal (hex_digit_value c) /\
  0 <= hex_digit_value c <= 15.
Proof.
  assert (H : forall c,
             implb (is_hex_digit c)
               (match hex2bin_at (char_value char_signed c) with
                | Normal h => (h =? hex_digit_value c) && (0 <=? h) && (h <=? 15)
                | Fault _ => false
                end) = true).
  { destruct char_signed; apply ascii_forall; vm_compute; reflexivity. }
  intros Hc. specialize (H c). rewrite Hc in H. simpl in H.
  destruct (hex2bin_at (char_value char_signed c)) as [h |]; [| discriminate].
  repeat (apply andb_prop in H as [H ?]).
  apply Z.eqb_eq in H as ->. split; [reflexivity | lia].
Qed.

Lemma class_is_plain (k : char_class) (c : ascii) :
  in_class k c = true -> (char_code c <? 128) = true /\ (char_code c =? 0) = false.
Proof.
  assert (H : forall c, implb (in_class k c)
                          ((char_code c <? 128) && negb (char_code c =? 0)) = true).
  { destruct k; apply ascii_forall; vm_compute; reflexivity. }
  intros Hc. specialize (H c). rewrite Hc in H. simpl in H.
  apply andb_prop in H as [H1 H2]. apply negb_true_iff in H2. auto.
Qed.

(* ------------------------------------------------------------------------- *)
(** ** The checking loop                                                     *)
(* ------------------------------------------------------------------------- *)

Section ParserFacts.

Variable char_signed : bool.

Lemma check_char_class (s : string) (i : nat) :
  check_char char_signed s i =
  (c <- c_str_at char_signed s i ;; check_class (position_class i) c).
Proof.
  unfold check_char. destruct (c_str_at char_signed s i) as [c |]; [| reflexivity].
  cbn [bind]. do 37 (destruct i as [| i]; [reflexivity |]). reflexivity.
Qed.

Lemma position_class_end (i : nat) : position_class i = None -> i = 36%nat.
Proof.
  do 36 (destruct i as [| i]; [discriminate |]).
  destruct i; [reflexivity | discriminate].
Qed.

Lemma c_str_at_String (c : ascii) (s : string) (i : nat) :
  c_str_at char_signed (String c s) (S i) = c_str_at char_signed s i.
Proof. reflexivity. Qed.

Lemma c_str_at_append (pre t : string) :
  c_str_at char_signed (pre ++ t) (String.length pre) = c_str_at char_signed t 0.
Proof.
  induction pre as [| c pre IH]; [reflexivity |].
  cbn [String.append String.length]. now rewrite c_str_at_String.
Qed.

Lemma append_snoc (pre : string) (c : ascii) (t : string) :
  ((pre ++ String c EmptyString) ++ t)%string = (pre ++ String c t)%string /\
  String.length (pre ++ String c EmptyString) = S (String.length pre).
Proof.
  induction pre as [| a pre [IH1 IH2]]; [auto |].
  cbn [String.append String.length]. now rewrite IH1, IH2.
Qed.

(** The loop at index [i] looks at the string from its [i]th character on. *)
Lemma check_loop_scan (n : nat) :
  forall pre t : string,
    (String.length pre + n <= 37)%nat ->
    check_loop char_signed (pre ++ t) (String.length pre) n
    = scan char_signed (map position_class (seq (String.length pre) n)) t.
Proof.
  induction n as [| n IH]; intros pre t Hlen; [reflexivity |].
  cbn [check_loop seq map scan].
  rewrite check_char_class, c_str_at_append.
  destruct t as [| c t].
  - (* the terminator *)
    change (c_str_at char_signed "" 0) with (Normal (A := Z) 0). cbn [bind].
    destruct (position_class (String.length pre)) as [[] |] eqn:Hk;
      try reflexivity.
    apply position_class_end in Hk.
    assert (n = 0%nat) as -> by lia. reflexivity.
  - destruct (c <- c_str_at char_signed (String c t) 0 ;; check_class _ c)
      as [[] |]; try reflexivity.
    cbn [bind]. destruct (append_snoc pre c t) as [<- <-]. apply IH.
    destruct (append_snoc pre c t) as [_ ->]. lia.
Qed.

(** Where the characters before the terminator are non-negative
    [char]s, the loop decides whether they have the layout. *)
Lemma scan_layout (layout : list char_class) :
  forall s : string,
    plain char_signed (c_string s) = true ->
    scan char_signed (map Some layout ++ [None]) s
    = Normal (matches_layout layout (c_string s)).
Proof.
  assert (Hclass : forall k c,
             char_signed && (128 <=? char_code c) = false ->
             check_class (Some k) (char_value char_signed c)
             = Normal (in_class k c)).
  { intros k c Hc. destruct k; cbn [in_class];
      [rewrite check_class_HexDigit, Hc | rewrite check_class_Hyphen];
      reflexivity. }
  induction layout as [| k layout IH]; intros s Hs.
  - destruct s as [| c s]; [reflexivity |].
    cbn [map app scan c_string]. unfold c_str_at. cbn [String.get bind].
    rewrite check_class_end. cbn [bind].
    destruct (char_code c =? 0); reflexivity.
  - destruct s as [| c s]; [now destruct k |].
    cbn [map app scan c_string] in Hs |- *.
    unfold c_str_at. cbn [String.get bind].
    destruct (Z.eqb_spec (char_code c) 0) as [Hz | Hz].
    + (* the terminator, where a character of the layout is due *)
      rewrite Hclass by (rewrite Hz; apply andb_false_r). cbn [bind].
      destruct (in_class k c) eqn:Hin; [| now destruct k].
      destruct (class_is_plain _ _ Hin) as [_ Hnz].
      apply Z.eqb_neq in Hnz. contradiction.
    + assert (Hc : char_signed && (128 <=? char_code c) = false /\
                   plain char_signed (c_string s) = true).
      { revert Hs. unfold plain, seven_bit.
        destruct char_signed; simpl; auto. intros H.
        apply andb_prop in H as [Hc Hs]. split; auto.
        apply Z.ltb_lt in Hc. apply Z.leb_gt. lia. }
      destruct Hc as [Hc Hs'].
      rewrite (Hclass k c Hc). cbn [bind matches_layout].
      destruct (in_class k c); [now apply IH | reflexivity].
Qed.

(** On any string the loop either decides whether the characters before
    the terminator have the layout, or, where [char] is signed, stops at
    one of them that is 128 or more with a read below the table. *)
Lemma scan_cases (layout : list char_class) :
  forall s : string,
    scan char_signed (map Some layout ++ [None]) s
    = Normal (matches_layout layout (c_string s)) \/
    (char_signed = true /\
     exists c, In c (list_ascii_of_string (c_string s)) /\
               128 <= char_code c /\
               scan char_signed (map Some layout ++ [None]) s
               = Fault (TableOutOfBounds (char_code c - 256))).
Proof.
  induction layout as [| k layout IH]; intros s.
  - left. destruct s as [| c s]; [reflexivity |].
    cbn [map app scan c_string]. unfold c_str_at. cbn [String.get bind].
    rewrite check_class_end. cbn [bind].
    destruct (char_code c =? 0); reflexivity.
  - destruct s as [| c s]; [left; now destruct k |].
    cbn [map app scan c_string]. unfold c_str_at. cbn [String.get bind].
    assert (Hk : check_class (Some k) (char_value char_signed c)
                 = Normal (in_class k c) \/
                 char_signed = true /\ 128 <= char_code c /\
                 check_class (Some k) (char_value char_signed c)
                 = Fault (TableOutOfBounds (char_code c - 256))).
    { destruct k; cbn [in_class];
        [rewrite check_class_HexDigit | rewrite check_class_Hyphen; now left].
      destruct char_signed; [| now left].
      destruct (Z.leb_spec 128 (char_code c)); [right | left]; auto. }
    destruct (Z.eqb_spec (char_code c) 0) as [Hz | Hz].
    + (* the terminator, where a character of the layout is due *)
      left. destruct Hk as [-> | (_ & Hhigh & _)]; [| lia]. cbn [bind].
      destruct (in_class k c) eqn:Hin; [| now destruct k].
      destruct (class_is_plain _ _ Hin) as [_ Hnz].
      apply Z.eqb_neq in Hnz. contradiction.
    + destruct Hk as [-> | (Hsigned & Hhigh & ->)].
      * cbn [bind matches_layout list_ascii_of_string].
        destruct (in_class k c); [| now left].
        destruct (IH s) as [-> | (Hsigned & c' & Hin & Hhigh & ->)];
          [now left | right].
        split; [assumption |]. exists c'. cbn [In]. auto.
      * right. split; [assumption |]. exists c.
        cbn [bind list_ascii_of_string In]. auto.
Qed.

Lemma position_classes :
  map position_class (seq 0 37) = map Some canonical_layout ++ [None].
Proof. reflexivity. Qed.

Lemma check_loop_layout (s : string) :
  plain char_signed (c_string s) = true ->
  check_loop char_signed s 0 37 = Normal (canonical_text (c_string s)).
Proof.
  intros Hs.
  pose proof (check_loop_scan 37 EmptyString s) as H.
  cbn [String.append String.length] in H. rewrite H by lia.
  rewrite position_classes. now apply scan_layout.
Qed.

End ParserFacts.

Lemma matches_layout_plain (layout : list char_class) :
  forall s, matches_layout layout s = true ->
            seven_bit s = true /\ no_NUL s = true.
Proof.
  induction layout as [| k layout IH]; intros [| c s]; simpl;
    try discriminate; auto.
  intros H. apply andb_prop in H as [Hc Hs].
  destruct (class_is_plain _ _ Hc) as [H1 H2], (IH _ Hs) as [H3 H4].
  unfold seven_bit, no_NUL in *. simpl. rewrite H1, H2. auto.
Qed.

Lemma c_string_no_NUL (s : string) : no_NUL s = true -> c_string s = s.
Proof.
  unfold no_NUL. induction s as [| c s IH]; simpl; [reflexivity |].
  intros H. apply andb_prop in H as [Hc Hs]. apply negb_true_iff in Hc.
  rewrite Hc. now rewrite IH.
Qed.

(* ------------------------------------------------------------------------- *)
(** ** Packing the digits                                                    *)
(* ------------------------------------------------------------------------- *)

Lemma lor_low (n hi lo : Z) :
  0 <= n -> 0 <= lo < 2 ^ n -> hi mod 2 ^ n = 0 -> Z.lor hi lo = hi + lo.
Proof.
  intros Hn Hlo Hhi.
  assert (Hland : Z.land hi lo = 0).
  { apply Z.bits_inj'. intros m Hm. rewrite Z.land_spec, Z.bits_0.
    destruct (Z.lt_ge_cases m n) as [Hlt | Hge].
    - rewrite <- (Z.mod_pow2_bits_low hi n m) by lia. rewrite Hhi, Z.bits_0. reflexivity.
    - rewrite <- (Z.mod_small lo (2 ^ n)) by lia.
      rewrite Z.mod_pow2_bits_high by lia. apply andb_false_r. }
  rewrite <- Z.lxor_lor by assumption. symmetry. now apply Z.add_nocarry_lxor.
Qed.

Lemma mod_pow2_lor (n a b : Z) :
  0 <= n -> (Z.lor a b) mod 2 ^ n = Z.lor (a mod 2 ^ n) (b mod 2 ^ n).
Proof.
  intros Hn. rewrite <- !Z.land_ones by assumption. apply Z.land_lor_distr_l.
Qed.

Lemma pow2_bounds (n m : Z) : 0 <= n <= m -> 0 < 2 ^ n <= 2 ^ m.
Proof.
  intros H. split; [apply Z.pow_pos_nonneg | apply Z.pow_le_mono_r]; lia.
Qed.

(** The shift by 28 can leave the range of [int]; what is converted to
    [unsigned int] is the product all the same. *)
Lemma to_uint_shl (h n : Z) :
  0 <= h <= 15 -> 0 <= n <= 28 -> (h << n) mod 2 ^ 32 = h * 2 ^ n.
Proof.
  intros Hh Hn. unfold shl, to_int. rewrite Z.shiftl_mul_pow2 by lia.
  assert (0 <= h * 2 ^ n < 2 ^ 32).
  { pose proof (pow2_bounds n 28 Hn).
    change (2 ^ 28) with 268435456 in *. change (2 ^ 32) with 4294967296. nia. }
  change (2 ^ 31) with 2147483648 in *. change (2 ^ 32) with 4294967296 in *.
  Z.div_mod_to_equations. lia.
Qed.

(** The shifts by 24 and less stay in the range of [int]. *)
Lemma shl_small (h n : Z) :
  0 <= h <= 15 -> 0 <= n <= 24 -> h << n = h * 2 ^ n.
Proof.
  intros Hh Hn. unfold shl, to_int. rewrite Z.shiftl_mul_pow2 by lia.
  assert (0 <= h * 2 ^ n < 2 ^ 31).
  { pose proof (pow2_bounds n 24 Hn).
    change (2 ^ 24) with 16777216 in *. change (2 ^ 31) with 2147483648. nia. }
  change (2 ^ 31) with 2147483648 in *. change (2 ^ 32) with 4294967296 in *.
  Z.div_mod_to_equations. lia.
Qed.

Lemma pack2 (h0 h1 : Z) :
  0 <= h0 <= 15 -> 0 <= h1 <= 15 ->
  to_uchar (h0 << 4 |' h1) = big_endian [h0; h1].
Proof.
  intros H0 H1. unfold to_uchar, big_endian. cbn [fold_left].
  rewrite shl_small by lia. lor_sum lor_low 4.
  rewrite Z.mod_small; lia.
Qed.

Lemma pack4 (h0 h1 h2 h3 : Z) :
  0 <= h0 <= 15 -> 0 <= h1 <= 15 -> 0 <= h2 <= 15 -> 0 <= h3 <= 15 ->
  to_ushort (h0 << 12 |' h1 << 8 |' h2 << 4 |' h3) = big_endian [h0; h1; h2; h3].
Proof.
  intros H0 H1 H2 H3. unfold to_ushort, big_endian. cbn [fold_left].
  rewrite !shl_small by lia.
  lor_sum lor_low 12. lor_sum lor_low 8. lor_sum lor_low 4.
  rewrite Z.mod_small; lia.
Qed.

Lemma pack8 (h0 h1 h2 h3 h4 h5 h6 h7 : Z) :
  0 <= h0 <= 15 -> 0 <= h1 <= 15 -> 0 <= h2 <= 15 -> 0 <= h3 <= 15 ->
  0 <= h4 <= 15 -> 0 <= h5 <= 15 -> 0 <= h6 <= 15 -> 0 <= h7 <= 15 ->
  to_uint (h0 << 28 |' h1 << 24 |' h2 << 20 |' h3 << 16 |'
           h4 << 12 |' h5 << 8 |' h6 << 4 |' h7)
  = big_endian [h0; h1; h2; h3; h4; h5; h6; h7].
Proof.
  intros H0 H1 H2 H3 H4 H5 H6 H7. unfold to_uint, big_endian. cbn [fold_left].
  rewrite !mod_pow2_lor by lia. rewrite to_uint_shl by lia.
  rewrite !shl_small by lia.
  rewrite !Z.mod_small by lia.
  lor_sum lor_low 28. lor_sum lor_low 24. lor_sum lor_low 20. lor_sum lor_low 16.
  lor_sum lor_low 12. lor_sum lor_low 8. lor_sum lor_low 4.
  lia.
Qed.

(* ------------------------------------------------------------------------- *)
(** ** string_to_guid on canonical text                                      *)
(* ------------------------------------------------------------------------- *)

Lemma matches_layout_cons (k : char_class) (layout : list char_class) (s : string) :
  matches_layout (k :: layout) (c_string s) = true ->
  exists c s', s = String c s' /\ in_class k c = true /\
               c_string s = String c (c_string s') /\
               matches_layout layout (c_string s') = true.
Proof.
  destruct s as [| c s']; cbn [c_string]; [discriminate |].
  destruct (char_code c =? 0); [discriminate |]. cbn [matches_layout].
  intros H. apply andb_prop in H as [Hc Hs]. eauto 6.
Qed.

Lemma matches_layout_nil (s : string) : matches_layout [] s = true -> s = EmptyString.
Proof. destruct s; [reflexivity | discriminate]. Qed.

Lemma hex_of_digit (char_signed : bool) (c : ascii) (s : string) (i : nat) :
  String.get i s = Some c -> is_hex_digit c = true ->
  hex char_signed s i = Normal (hex_digit_value c).
Proof.
  intros Hget Hc. unfold hex, c_str_at. rewrite Hget. cbn [bind].
  apply hex2bin_of_digit, Hc.
Qed.

Lemma hyphen_is_no_digit (c : ascii) :
  Ascii.eqb c "-" = true -> is_hex_digit c = false.
Proof. intros H. apply Ascii.eqb_eq in H as ->. reflexivity. Qed.

Lemma filter_keep (A : Type) (f : A -> bool) (x : A) (l : list A) :
  f x = true -> filter f (x :: l) = x :: filter f l.
Proof. intros H. simpl. now rewrite H. Qed.

Lemma filter_drop (A : Type) (f : A -> bool) (x : A) (l : list A) :
  f x = false -> filter f (x :: l) = filter f l.
Proof. intros H. simpl. now rewrite H. Qed.

(** Where the characters before the terminator are canonical text, the
    digits are packed into the fields. *)
Lemma string_to_guid_canonical (char_signed : bool) (s : string) :
  canonical_text (c_string s) = true ->
  string_to_guid char_signed s = Normal (Some (decode_canonical (c_string s))).
Proof.
  intros H.
  assert (Hcheck : check_loop char_signed s 0 37 = Normal true).
  { destruct (matches_layout_plain _ _ H) as [H7 _].
    rewrite check_loop_layout, H; auto.
    unfold plain. rewrite H7. apply orb_true_r. }
  unfold string_to_guid. rewrite Hcheck. cbn [bind negb]. clear Hcheck.
  unfold canonical_text, canonical_layout in H. cbn [repeat app] in H.
  do 36 split_layout matches_layout_cons H.
  apply matches_layout_nil in H. rewrite H. clear H.
  cbn [in_class] in *.
  repeat match goal with
  | Hc : is_hex_digit ?c = true |- context [hex char_signed ?s ?i] =>
      rewrite (hex_of_digit char_signed c s i eq_refl Hc)
  end.
  cbn [bind ret].
  unfold decode_canonical, hex_digits. cbn [list_ascii_of_string].
  repeat match goal with
  | Hc : Ascii.eqb ?c "-" = true |- _ => apply hyphen_is_no_digit in Hc
  end.
  repeat first [ rewrite filter_keep by assumption
               | rewrite filter_drop by assumption ].
  cbn [filter map firstn skipn byte_pairs].
  repeat match goal with
  | Hc : is_hex_digit ?c = true |- _ =>
      apply (hex2bin_of_digit char_signed) in Hc as [_ Hc]
  end.
  rewrite pack8, !pack4, !pack2 by assumption. reflexivity.
Qed.

(** ** string_to_guid on any string *)

(** The function either returns, with the identifier for canonical text
    and false / nullopt for any other, or, where [char] is signed, reads
    [hex2bin] at the negative value of a character of the text. *)
Lemma string_to_guid_cases (char_signed : bool) (s : string) :
  string_to_guid char_signed s =
  Normal (if canonical_text (c_string s)
          then Some (decode_canonical (c_string s)) else None) \/
  (char_signed = true /\
   exists c, In c (list_ascii_of_string (c_string s)) /\
             128 <= char_code c /\
             string_to_guid char_signed s
             = Fault (TableOutOfBounds (char_code c - 256))).
Proof.
  pose proof (check_loop_scan char_signed 37 EmptyString s) as Hloop.
  cbn [String.append String.length] in Hloop.
  rewrite position_classes in Hloop. specialize (Hloop ltac:(lia)).
  destruct (scan_cases char_signed canonical_layout s)
    as [Hscan | (Hsigned & c & Hin & Hhigh & Hscan)];
    rewrite Hscan in Hloop; clear Hscan.
  - left. fold (canonical_text (c_string s)) in Hloop.
    destruct (canonical_text (c_string s)) eqn:Hcan.
    + now apply string_to_guid_canonical.
    + unfold string_to_guid. now rewrite Hloop.
  - right. split; [assumption |]. exists c.
    unfold string_to_guid. rewrite Hloop. auto.
Qed.

(** The only fault is the read below the table, and only where [char] is
    signed: the function never reads past the terminator, and with an
    unsigned [char] it always returns. *)
Lemma string_to_guid_fault (char_signed : bool) (s : string) (f : fault) :
  string_to_guid char_signed s = Fault f ->
  char_signed = true /\
  exists idx, f = TableOutOfBounds idx /\ -128 <= idx < 0.
Proof.
  destruct (string_to_guid_cases char_signed s)
    as [-> | (Hsigned & c & _ & Hhigh & ->)]; [discriminate |].
  intros H. inversion H; subst f. split; [assumption |].
  exists (char_code c - 256). split; [reflexivity |].
  pose proof (N_ascii_bounded c) as Hc. unfold char_code in *. lia.
Qed.

(** ** string_to_guid on non-negative characters *)

(** Where no character before the terminator is a negative [char] (the
    platform's [char] is unsigned, or the text is 7-bit), the function
    returns, with the identifier for canonical text and with false /
    nullopt for anything else. *)
Lemma string_to_guid_plain (char_signed : bool) (s : string) :
  plain char_signed (c_string s) = true ->
  string_to_guid char_signed s =
  Normal (if canonical_text (c_string s)
          then Some (decode_canonical (c_string s)) else None).
Proof.
  intros Hs. destruct (canonical_text (c_string s)) eqn:Hcan.
  - now apply string_to_guid_canonical.
  - unfold string_to_guid. now rewrite check_loop_layout, Hcan.
Qed.

Lemma string_to_guid_unsigned_total (s : string) :
  exists r, string_to_guid false s = Normal r.
Proof. rewrite string_to_guid_plain by reflexivity. eauto. Qed.

(** A text that fits the layout up to a hex digit position. *)
Lemma scan_prefix (char_signed : bool) (l1 : list char_class) :
  forall (ks : list (option char_class)) (pre t : string),
    matches_layout l1 pre = true ->
    scan char_signed (map Some l1 ++ ks) (pre ++ t) = scan char_signed ks t.
Proof.
  induction l1 as [| k l1 IH]; intros ks pre t H.
  - apply matches_layout_nil in H as ->. reflexivity.
  - destruct pre as [| c pre]; [discriminate H |].
    cbn [matches_layout] in H. apply andb_prop in H as [Hc Hpre].
    cbn [map app scan String.append]. unfold c_str_at. cbn [String.get bind].
    destruct (class_is_plain _ _ Hc) as [H7 _]. apply Z.ltb_lt in H7.
    assert (Hk : check_class (Some k) (char_value char_signed c) = Normal true).
    { destruct k; cbn [in_class] in Hc.
      - rewrite check_class_HexDigit, Hc.
        destruct (Z.leb_spec 128 (char_code c)); [lia |].
        now rewrite andb_false_r.
      - now rewrite check_class_Hyphen, Hc. }
    rewrite Hk. cbn [bind]. now apply IH.
Qed.

(** Where [char] is signed, a byte of 128 or more at the first position
    that does not fit, when that is a hex digit position, is used as a
    negative index into [hex2bin]. *)
Lemma string_to_guid_negative_char (l1 l2 : list char_class)
    (pre : string) (c : ascii) (rest : string) :
  canonical_layout = l1 ++ HexDigit :: l2 ->
  matches_layout l1 pre = true ->
  128 <= char_code c ->
  string_to_guid true (pre ++ String c rest)
  = Fault (TableOutOfBounds (char_code c - 256)).
Proof.
  intros Hlayout Hpre Hc. unfold string_to_guid.
  pose proof (check_loop_scan true 37 EmptyString (pre ++ String c rest)) as H.
  cbn [String.append String.length] in H. rewrite H by lia. clear H.
  rewrite position_classes, Hlayout, map_app, <- app_assoc.
  rewrite scan_prefix by assumption.
  cbn [map app scan]. unfold c_str_at. cbn [String.get bind].
  rewrite check_class_HexDigit.
  destruct (Z.leb_spec 128 (char_code c)); [reflexivity | lia].
Qed.

(** The identifiers the function returns hold values of their members'
    types, on which [operator ==] is equality. *)
Lemma bind_Normal (A B : Type) (m : outcome A) (k : A -> outcome B) (r : B) :
  bind m k = Normal r -> exists a, m = Normal a /\ k a = Normal r.
Proof. destruct m as [a |]; simpl; [eauto | discriminate]. Qed.

Lemma string_to_guid_well_formed (char_signed : bool) (s : string) (g : GUID) :
  string_to_guid char_signed s = Normal (Some g) -> well_formed g.
Proof.
  unfold string_to_guid. intros H.
  apply bind_Normal in H as ([] & _ & H); cbn [negb] in H; [| discriminate H].
  do 32 (apply bind_Normal in H as (? & _ & H)).
  cbv zeta in H. unfold ret in H. injection H as <-.
  unfold well_formed, to_uint, to_ushort, to_uchar; cbn [Data1 Data2 Data3 Data4].
  assert (B : forall z n, 0 <= z mod 2 ^ Z.pos n < 2 ^ Z.pos n).
  { intros z n. apply Z.mod_pos_bound, Z.pow_pos_nonneg; lia. }
  split; [apply B |]. split; [apply B |]. split; [apply B |].
  split; [reflexivity |].
  repeat (apply Forall_cons; [apply B |]). apply Forall_nil.
Qed.

(** So are the constants of the interfaces of a class that compiles: a
    lookup compares identifiers for equality. *)
Lemma __guid_well_formed (char_signed : bool) (I1 : interface) (g : GUID) :
  __guid char_signed I1 = Some g -> well_formed g.
Proof.
  unfold __guid.
  destruct (string_to_guid char_signed (iface_iid I1)) as [[g' |] |] eqn:H;
    try discriminate.
  intros E. inversion E; subst g'. eapply string_to_guid_well_formed, H.
Qed.

Lemma descriptors_well_formed (char_signed : bool) (Is : list interface) :
  forall ds, descriptors char_signed Is = Some ds ->
             Forall (fun d => well_formed (d_guid d)) ds.
Proof.
  induction Is as [| I1 IRest IH]; simpl; intros ds H.
  - inversion H. constructor.
  - destruct (__guid char_signed I1) as [g |] eqn:Hg; [| discriminate].
    destruct (descriptors char_signed IRest) as [ds' |]; [| discriminate].
    inversion H; subst. constructor; [| now apply IH].
    simpl. eapply __guid_well_formed, Hg.
Qed.

(* ------------------------------------------------------------------------- *)
(** ** Claims on the text interpreter                                        *)
(* ------------------------------------------------------------------------- *)

(** C5: for every canonical text, [string_to_guid] succeeds and the
    identifier holds the big-endian value of the first 8 digits in
    [Data1], of the next 4 in [Data2], of the next 4 in [Data3], and the 16
    digits that remain as 8 byte pairs in [Data4], the last 12 of them as
    its last 6 bytes; the text of [IUnknown] gives
    [{0, 0, 0, {0xC0,0,0,0,0,0,0,0x46}}]. *)
Theorem string_to_guid_decodes_canonical_text :
  forall (char_signed : bool) (s : string),
    canonical_text s = true ->
    string_to_guid char_signed s = Normal (Some (decode_canonical s)) /\
    string_to_guid char_signed "00000000-0000-0000-C000-000000000046"
    = Normal (Some (mkGUID 0 0 0 [0xC0; 0; 0; 0; 0; 0; 0; 0x46])).
Proof.
  intros char_signed s H. split.
  - destruct (matches_layout_plain _ _ H) as [_ Hnul].
    pose proof (string_to_guid_canonical char_signed s) as G.
    rewrite (c_string_no_NUL s Hnul) in G. exact (G H).
  - destruct char_signed; vm_compute; reflexivity.
Qed.

Lemma string_to_guid_decodes_canonical_text_witness :
  string_to_guid true "0123ABCD-ef01-9876-FfEe-a0b1c2d3e4F5"
  = Normal (Some (decode_canonical "0123ABCD-ef01-9876-FfEe-a0b1c2d3e4F5")).
Proof.
  refine (proj1 (string_to_guid_decodes_canonical_text
                   true "0123ABCD-ef01-9876-FfEe-a0b1c2d3e4F5" _)).
  vm_compute; reflexivity.
Defined.

(** C6 at a text of 36 characters, hyphens in place, whose last byte is
    0xFF, where [char] is signed: the text is not canonical, and the call
    does not return false / nullopt: it reads [hex2bin[-1]]. *)
Theorem string_to_guid_high_byte_not_rejected :
  String.length text_FF = 36%nat /\
  canonical_text text_FF = false /\
  string_to_guid true text_FF = Fault (TableOutOfBounds (-1)) /\
  string_to_guid true text_FF <> Normal None /\
  string_to_guid false text_FF = Normal None.
Proof.
  repeat split; try (vm_compute; reflexivity).
  vm_compute. discriminate.
Qed.

(** C10 at a text whose first byte is 0xE9, where [char] is signed: the
    byte is the [char] -23, the comparison with ['f'] lets it pass, and
    the table of 103 entries is read at index -23. *)
Theorem hex2bin_read_below_the_table :
  char_value true (ascii_of_nat 233) = -23 /\
  (char_value true (ascii_of_nat 233) >? char_code "f") = false /\
  check_char true text_E9 0 = Fault (TableOutOfBounds (-23)) /\
  string_to_guid true text_E9 = Fault (TableOutOfBounds (-23)) /\
  List.length hex2bin = 103%nat /\
  string_to_guid false text_E9 = Normal None.
Proof. repeat split; vm_compute; reflexivity. Qed.


(* ========================================================================= *)
(** * Further properties of the code                                         *)
(* ========================================================================= *)

(* ------------------------------------------------------------------------- *)
(** ** Identifiers and their texts                                           *)
(* ------------------------------------------------------------------------- *)

(** X1: on identifiers whose members hold values of their types,
    [operator ==], a [memcmp] of the 16 bytes, is true exactly when the
    four members are equal, and does not depend on the order of its
    operands. *)
Theorem guid_eq_compares_members :
  forall a b : GUID,
    well_formed a -> well_formed b ->
    ((a == b) = true <->
     Data1 a = Data1 b /\ Data2 a = Data2 b /\ Data3 a = Data3 b /\
     Data4 a = Data4 b) /\
    (a == b) = (b == a).
Proof.
  intros a b Ha Hb.
  pose proof (guid_eq_true_iff a b Ha Hb) as Hab.
  pose proof (guid_eq_true_iff b a Hb Ha) as Hba.
  split.
  - rewrite Hab. split.
    + intros ->. auto.
    + destruct a, b; simpl. intros (-> & -> & -> & ->). reflexivity.
  - clear Hab Hba.
    destruct (a == b) eqn:E1, (b == a) eqn:E2; try reflexivity.
    + apply (guid_eq_true_iff a b Ha Hb) in E1. subst b.
      now rewrite guid_eq_refl in E2.
    + apply (guid_eq_true_iff b a Hb Ha) in E2. subst b.
      now rewrite guid_eq_refl in E1.
Qed.

Lemma guid_eq_compares_members_witness :
  ((IID_IUnknown == IID_IFoo) = true <->
   Data1 IID_IUnknown = Data1 IID_IFoo /\ Data2 IID_IUnknown = Data2 IID_IFoo /\
   Data3 IID_IUnknown = Data3 IID_IFoo /\ Data4 IID_IUnknown = Data4 IID_IFoo) /\
  (IID_IUnknown == IID_IFoo) = (IID_IFoo == IID_IUnknown).
Proof.
  apply (guid_eq_compares_members IID_IUnknown IID_IFoo).
  - unfold well_formed; simpl. repeat split; try lia. repeat constructor; lia.
  - unfold well_formed; simpl. repeat split; try lia. repeat constructor; lia.
Defined.

(** X2: [hex2bin] has an entry for every character code up to ['f'] and
    for no other index; the entry of a hex digit is the digit's value, the
    entry of any other character is 99. *)
Theorem hex2bin_entries :
  forall c : ascii,
    char_code c <= char_code "f" ->
    hex2bin_at (char_code c)
    = Normal (if is_hex_digit c then hex_digit_value c else 99) /\
    (forall idx : Z,
        (exists v, hex2bin_at idx = Normal v) <-> 0 <= idx <= char_code "f").
Proof.
  assert (H : forall c,
             implb (char_code c <=? char_code "f")
               (match hex2bin_at (char_code c) with
                | Normal h => h =? (if is_hex_digit c then hex_digit_value c else 99)
                | Fault _ => false
                end) = true).
  { apply ascii_forall. vm_compute. reflexivity. }
  intros c Hc. specialize (H c).
  apply Z.leb_le in Hc. rewrite Hc in H. cbn [implb] in H.
  split.
  - destruct (hex2bin_at (char_code c)) as [h |]; [| discriminate H].
    apply Z.eqb_eq in H. now subst h.
  - intros idx. unfold hex2bin_at.
    change (Z.of_nat (List.length hex2bin)) with 103.
    change (char_code "f") with 102.
    destruct (Z.leb_spec 0 idx), (Z.ltb_spec idx 103); cbn [andb]; split;
      try lia; try (intros [v Hv]; discriminate Hv); eauto.
Qed.

Lemma hex2bin_entries_witness :
  hex2bin_at (char_code "F")
  = Normal (if is_hex_digit "F" then hex_digit_value "F" else 99) /\
  (forall idx : Z,
      (exists v, hex2bin_at idx = Normal v) <-> 0 <= idx <= char_code "f").
Proof.
  apply (hex2bin_entries "F"). vm_compute. discriminate.
Defined.

Lemma matches_layout_length (layout : list char_class) :
  forall s, matches_layout layout s = true ->
            String.length s = List.length layout.
Proof.
  induction layout as [| k layout IH]; intros [| c s]; simpl;
    try discriminate; auto.
  intros H. apply andb_prop in H as [_ H]. now rewrite (IH s H).
Qed.

(** What a returned identifier tells about the text. *)
Lemma string_to_guid_Some (char_signed : bool) (s : string) (g : GUID) :
  string_to_guid char_signed s = Normal (Some g) ->
  canonical_text (c_string s) = true /\ g = decode_canonical (c_string s).
Proof.
  intros H.
  destruct (string_to_guid_cases char_signed s)
    as [Hs | (_ & c & _ & _ & Hs)]; rewrite Hs in H; [| discriminate H].
  destruct (canonical_text (c_string s)); [| discriminate H].
  split; [reflexivity | congruence].
Qed.

(** X3: where no character before the terminator is a negative [char]
    (the [char] of the platform is unsigned, or the text is 7-bit),
    [string_to_guid] returns, and it returns an identifier exactly for
    canonical text of 36 characters before the terminator; the identifier
    is then the decoding of that text. *)
Theorem string_to_guid_accepts_canonical_only :
  forall (char_signed : bool) (s : string) (g : GUID),
    plain char_signed (c_string s) = true ->
    (exists r, string_to_guid char_signed s = Normal r) /\
    (string_to_guid char_signed s = Normal (Some g) <->
     canonical_text (c_string s) = true /\
     String.length (c_string s) = 36%nat /\
     g = decode_canonical (c_string s)).
Proof.
  intros char_signed s g Hplain.
  pose proof (string_to_guid_plain char_signed s Hplain) as H.
  split; [rewrite H; eauto |]. rewrite H. split.
  - destruct (canonical_text (c_string s)) eqn:Hcan; [| discriminate].
    intros Hg. split; [reflexivity |]. split; [| congruence].
    now rewrite (matches_layout_length _ _ Hcan).
  - intros (Hcan & _ & ->). now rewrite Hcan.
Qed.

Lemma string_to_guid_accepts_canonical_only_witness :
  (exists r, string_to_guid false text_FF = Normal r) /\
  (string_to_guid false text_FF = Normal (Some IID_IUnknown) <->
   canonical_text (c_string text_FF) = true /\
   String.length (c_string text_FF) = 36%nat /\
   IID_IUnknown = decode_canonical (c_string text_FF)).
Proof.
  apply (string_to_guid_accepts_canonical_only false text_FF IID_IUnknown).
  reflexivity.
Defined.

(** X4: [string_to_guid] leaves the defined behaviour in one way only:
    where [char] is signed, by reading [hex2bin] at the negative value of
    a byte of 128 or more that stands before the terminator.  It never
    reads the string past its terminator. *)
Theorem string_to_guid_only_fault :
  forall (char_signed : bool) (s : string) (f : fault),
    string_to_guid char_signed s = Fault f ->
    char_signed = true /\
    f <> StringOverrun /\
    exists c : ascii,
      In c (list_ascii_of_string (c_string s)) /\
      128 <= char_code c /\
      f = TableOutOfBounds (char_value true c) /\
      -128 <= char_value true c < 0.
Proof.
  intros char_signed s f H.
  destruct (string_to_guid_cases char_signed s)
    as [Hs | (Hsigned & c & Hin & Hhigh & Hs)]; rewrite Hs in H;
    [discriminate H |].
  injection H as <-.
  assert (Hv : char_value true c = char_code c - 256).
  { unfold char_value. cbn [andb].
    destruct (Z.leb_spec 128 (char_code c)); [reflexivity | lia]. }
  split; [assumption |]. split; [discriminate |].
  exists c. rewrite Hv.
  pose proof (N_ascii_bounded c) as Hc. unfold char_code in *.
  repeat split; auto; lia.
Qed.

Lemma string_to_guid_only_fault_witness :
  true = true /\
  TableOutOfBounds (-23) <> StringOverrun /\
  exists c : ascii,
    In c (list_ascii_of_string (c_string text_E9)) /\
    128 <= char_code c /\
    TableOutOfBounds (-23) = TableOutOfBounds (char_value true c) /\
    -128 <= char_value true c < 0.
Proof.
  apply (string_to_guid_only_fault true text_E9 (TableOutOfBounds (-23))).
  vm_compute. reflexivity.
Defined.

Lemma c_string_idempotent (s : string) : c_string (c_string s) = c_string s.
Proof.
  induction s as [| c s IH]; [reflexivity |].
  cbn [c_string]. destruct (char_code c =? 0) eqn:Hc; [reflexivity |].
  cbn [c_string]. now rewrite Hc, IH.
Qed.

Lemma char_value_NUL (char_signed : bool) (c : ascii) :
  char_code c = 0 -> char_value char_signed c = 0.
Proof.
  intros Hc. unfold char_value. rewrite Hc. now rewrite andb_false_r.
Qed.

(** The loop does not look behind the first NUL. *)
Lemma scan_c_string (char_signed : bool) (layout : list char_class) :
  forall s : string,
    scan char_signed (map Some layout ++ [None]) s
    = scan char_signed (map Some layout ++ [None]) (c_string s).
Proof.
  induction layout as [| k layout IH]; intros [| c s]; try reflexivity;
    cbn [map app scan c_string]; unfold c_str_at; cbn [String.get bind];
    destruct (Z.eqb_spec (char_code c) 0) as [Hz | Hz].
  - cbn [String.get String.length Nat.eqb bind].
    now rewrite (char_value_NUL _ _ Hz).
  - cbn [String.get bind].
    destruct (check_class None (char_value char_signed c)) as [[] |];
      reflexivity.
  - cbn [String.get String.length Nat.eqb bind].
    rewrite (char_value_NUL _ _ Hz). now destruct k.
  - cbn [String.get bind].
    destruct (check_class (Some k) (char_value char_signed c)) as [[] |];
      try reflexivity.
    cbn [bind]. apply IH.
Qed.

Lemma check_loop_c_string (char_signed : bool) (s : string) :
  check_loop char_signed s 0 37 = check_loop char_signed (c_string s) 0 37.
Proof.
  pose proof (check_loop_scan char_signed 37 EmptyString s) as H1.
  pose proof (check_loop_scan char_signed 37 EmptyString (c_string s)) as H2.
  cbn [String.append String.length] in H1, H2.
  rewrite H1, H2 by lia. rewrite position_classes. apply scan_c_string.
Qed.

(** X5: the result of [string_to_guid] is fixed by the characters before
    the first NUL of its argument; what the array holds behind it plays no
    part. *)
Theorem string_to_guid_stops_at_terminator :
  forall (char_signed : bool) (s : string),
    string_to_guid char_signed s = string_to_guid char_signed (c_string s).
Proof.
  intros char_signed s.
  destruct (check_loop char_signed s 0 37) as [[] | f] eqn:Hloop.
  - (* the check passed: the text is canonical *)
    assert (Hcan : canonical_text (c_string s) = true).
    { pose proof (check_loop_scan char_signed 37 EmptyString s) as H.
      cbn [String.append String.length] in H.
      rewrite H, position_classes in Hloop by lia.
      destruct (scan_cases char_signed canonical_layout s)
        as [Hs | (_ & c & _ & _ & Hs)]; rewrite Hs in Hloop;
        [| discriminate Hloop].
      now injection Hloop. }
    rewrite (string_to_guid_canonical char_signed s Hcan).
    rewrite (string_to_guid_canonical char_signed (c_string s));
      rewrite c_string_idempotent; auto.
  - unfold string_to_guid. now rewrite <- check_loop_c_string, Hloop.
  - unfold string_to_guid. now rewrite <- check_loop_c_string, Hloop.
Qed.

(** ** Texts with the same digits *)

Lemma hex_digits_String (c : ascii) (s : string) :
  hex_digits (String c s) =
  if is_hex_digit c then hex_digit_value c :: hex_digits s else hex_digits s.
Proof.
  unfold hex_digits. cbn [list_ascii_of_string filter].
  now destruct (is_hex_digit c).
Qed.

(** The digits of a text that matches a layout: one for each hex digit
    position. *)
Lemma hex_digits_layout (layout : list char_class) :
  forall s, matches_layout layout s = true ->
            List.length (hex_digits s) = List.length (filter is_HexDigit layout) /\
            Forall digit (hex_digits s).
Proof.
  induction layout as [| k layout IH]; intros [| c s]; simpl;
    try discriminate.
  - intros _. split; [reflexivity | constructor].
  - intros H. apply andb_prop in H as [Hc Hs].
    destruct (IH s Hs) as [Hlen Hall].
    rewrite hex_digits_String. destruct k; cbn [in_class is_HexDigit] in *.
    + rewrite Hc. cbn [List.length]. split; [now rewrite Hlen |].
      constructor; [| assumption].
      exact (proj2 (hex2bin_of_digit false c Hc)).
    + now rewrite (hyphen_is_no_digit c Hc).
Qed.

Lemma big_endian_from (l1 : list Z) :
  forall (l2 : list Z) (a1 a2 : Z),
    List.length l1 = List.length l2 -> Forall digit l1 -> Forall digit l2 ->
    fold_left (fun acc d => 16 * acc + d) l1 a1
    = fold_left (fun acc d => 16 * acc + d) l2 a2 ->
    a1 = a2 /\ l1 = l2.
Proof.
  induction l1 as [| d1 l1 IH]; intros [| d2 l2] a1 a2 Hlen H1 H2;
    try discriminate Hlen; cbn [fold_left]; [auto |].
  intros H. inversion H1 as [| ? ? D1 H1']; inversion H2 as [| ? ? D2 H2']; subst.
  apply IH in H as [Ha ->]; auto.
  unfold digit in D1, D2. split; [lia | f_equal; lia].
Qed.

Lemma big_endian_inj (l1 l2 : list Z) :
  List.length l1 = List.length l2 -> Forall digit l1 -> Forall digit l2 ->
  big_endian l1 = big_endian l2 -> l1 = l2.
Proof.
  intros Hlen H1 H2 H. now apply (big_endian_from l1 l2 0 0).
Qed.

Lemma byte_pairs_inj (n : nat) :
  forall l1 l2 : list Z,
    List.length l1 = (2 * n)%nat -> List.length l2 = (2 * n)%nat ->
    Forall digit l1 -> Forall digit l2 ->
    byte_pairs l1 = byte_pairs l2 -> l1 = l2.
Proof.
  induction n as [| n IH]; intros l1 l2 Hl1 Hl2 H1 H2 H.
  - destruct l1, l2; try discriminate; reflexivity.
  - destruct l1 as [| a1 [| b1 l1]]; try (simpl in Hl1; lia).
    destruct l2 as [| a2 [| b2 l2]]; try (simpl in Hl2; lia).
    inversion H1 as [| ? ? A1 T1]; inversion T1 as [| ? ? B1 R1]; subst.
    inversion H2 as [| ? ? A2 T2]; inversion T2 as [| ? ? B2 R2]; subst.
    cbn [byte_pairs] in H. injection H as Hpair Hrest.
    apply big_endian_inj in Hpair;
      [| reflexivity | repeat (constructor; [assumption |]); constructor ..].
    injection Hpair as -> ->. do 2 f_equal.
    simpl in Hl1, Hl2. apply IH; auto; lia.
Qed.

Lemma Forall_firstn_skipn (A : Type) (P : A -> Prop) (n : nat) (l : list A) :
  Forall P l -> Forall P (firstn n l) /\ Forall P (skipn n l).
Proof.
  intros H. rewrite <- (firstn_skipn n l) in H. now apply Forall_app in H.
Qed.

(** The four members fix the 32 digits. *)
Lemma decode_digits_inj (ds1 ds2 : list Z) :
  List.length ds1 = 32%nat -> List.length ds2 = 32%nat ->
  Forall digit ds1 -> Forall digit ds2 ->
  big_endian (firstn 8 ds1) = big_endian (firstn 8 ds2) ->
  big_endian (firstn 4 (skipn 8 ds1)) = big_endian (firstn 4 (skipn 8 ds2)) ->
  big_endian (firstn 4 (skipn 12 ds1)) = big_endian (firstn 4 (skipn 12 ds2)) ->
  byte_pairs (skipn 16 ds1) = byte_pairs (skipn 16 ds2) ->
  ds1 = ds2.
Proof.
  intros L1 L2 F1 F2 E1 E2 E3 E4.
  apply big_endian_inj in E1;
    [| rewrite !length_firstn; lia
     | apply (Forall_firstn_skipn _ _ 8 _ F1)
     | apply (Forall_firstn_skipn _ _ 8 _ F2)].
  apply big_endian_inj in E2;
    [| rewrite !length_firstn, !length_skipn; lia
     | apply Forall_firstn_skipn, (Forall_firstn_skipn _ _ 8 _ F1)
     | apply Forall_firstn_skipn, (Forall_firstn_skipn _ _ 8 _ F2)].
  apply big_endian_inj in E3;
    [| rewrite !length_firstn, !length_skipn; lia
     | apply Forall_firstn_skipn, (Forall_firstn_skipn _ _ 12 _ F1)
     | apply Forall_firstn_skipn, (Forall_firstn_skipn _ _ 12 _ F2)].
  apply (byte_pairs_inj 8) in E4;
    [| rewrite length_skipn; lia | rewrite length_skipn; lia
     | apply (Forall_firstn_skipn _ _ 16 _ F1)
     | apply (Forall_firstn_skipn _ _ 16 _ F2)].
  rewrite <- (firstn_skipn 8 ds1), <- (firstn_skipn 8 ds2), E1. f_equal.
  rewrite <- (firstn_skipn 4 (skipn 8 ds1)), <- (firstn_skipn 4 (skipn 8 ds2)), E2.
  f_equal. rewrite !skipn_skipn. cbn [Nat.add].
  rewrite <- (firstn_skipn 4 (skipn 12 ds1)), <- (firstn_skipn 4 (skipn 12 ds2)), E3.
  f_equal. rewrite !skipn_skipn. cbn [Nat.add]. exact E4.
Qed.

Lemma decode_canonical_inj (s t : string) :
  canonical_text s = true -> canonical_text t = true ->
  decode_canonical s = decode_canonical t -> hex_digits s = hex_digits t.
Proof.
  intros Hs Ht H.
  destruct (hex_digits_layout _ _ Hs) as [Ls Fs].
  destruct (hex_digits_layout _ _ Ht) as [Lt Ft].
  unfold decode_canonical in H. injection H as E1 E2 E3 E4.
  now apply decode_digits_inj.
Qed.

Lemma canonical_c_string (s : string) :
  canonical_text s = true -> c_string s = s.
Proof.
  intros H. apply c_string_no_NUL. now destruct (matches_layout_plain _ _ H).
Qed.

(** X6: two canonical texts give the same identifier exactly when their
    32 hex digits have the same values, position by position: no two
    texts that differ in a digit's value share an identifier, and the case
    of the letters a to f plays no part. *)
Theorem string_to_guid_same_digits :
  forall (char_signed : bool) (s t : string),
    canonical_text s = true -> canonical_text t = true ->
    (string_to_guid char_signed s = string_to_guid char_signed t <->
     hex_digits s = hex_digits t).
Proof.
  intros char_signed s t Hs Ht.
  pose proof (string_to_guid_canonical char_signed s) as Ps.
  pose proof (string_to_guid_canonical char_signed t) as Pt.
  rewrite (canonical_c_string s Hs) in Ps.
  rewrite (canonical_c_string t Ht) in Pt.
  rewrite (Ps Hs), (Pt Ht). split.
  - intros H. apply decode_canonical_inj; auto. congruence.
  - intros H. unfold decode_canonical. now rewrite H.
Qed.

Lemma string_to_guid_same_digits_witness :
  string_to_guid true "0123abcd-ef01-9876-ffee-a0b1c2d3e4f5"
  = string_to_guid true "0123ABCD-EF01-9876-FFEE-A0B1C2D3E4F5" <->
  hex_digits "0123abcd-ef01-9876-ffee-a0b1c2d3e4f5"
  = hex_digits "0123ABCD-EF01-9876-FFEE-A0B1C2D3E4F5".
Proof.
  apply (string_to_guid_same_digits true
           "0123abcd-ef01-9876-ffee-a0b1c2d3e4f5"
           "0123ABCD-EF01-9876-FFEE-A0B1C2D3E4F5");
    vm_compute; reflexivity.
Defined.

(** [operator ==] on two identifiers that [string_to_guid] returned. *)
Lemma parsed_eq_digits (char_signed : bool) (s t : string) (g h : GUID) :
  string_to_guid char_signed s = Normal (Some g) ->
  string_to_guid char_signed t = Normal (Some h) ->
  ((g == h) = true <->
   hex_digits (c_string s) = hex_digits (c_string t)).
Proof.
  intros Hs Ht.
  pose proof (string_to_guid_well_formed _ _ _ Hs) as Wg.
  pose proof (string_to_guid_well_formed _ _ _ Ht) as Wh.
  apply string_to_guid_Some in Hs as [Cs ->], Ht as [Ct ->].
  rewrite (guid_eq_true_iff _ _ Wg Wh). split.
  - intros H. now apply decode_canonical_inj.
  - intros H. unfold decode_canonical. now rewrite H.
Qed.

Lemma __guid_parses (char_signed : bool) (I1 : interface) (g : GUID) :
  __guid char_signed I1 = Some g ->
  string_to_guid char_signed (iface_iid I1) = Normal (Some g).
Proof.
  unfold __guid.
  destruct (string_to_guid char_signed (iface_iid I1)) as [[g' |] |];
    try discriminate.
  intros H. now injection H as ->.
Qed.

Lemma descriptors_guid (char_signed : bool) (Is : list interface) :
  forall ds, descriptors char_signed Is = Some ds ->
             Forall (fun d => __guid char_signed (d_interface d) = Some (d_guid d)) ds.
Proof.
  induction Is as [| I1 IRest IH]; simpl; intros ds H.
  - inversion H. constructor.
  - destruct (__guid char_signed I1) as [g |] eqn:Hg; [| discriminate].
    destruct (descriptors char_signed IRest) as [ds' |]; [| discriminate].
    inversion H; subst. constructor; [exact Hg | now apply IH].
Qed.

(** X7: in a class that compiles, [operator ==] holds two entries of the
    registry for the same identifier exactly when the identifier texts
    they were declared with have the same hex digit values. *)
Theorem registry_entries_equal_by_digits :
  forall (char_signed : bool) (Interfaces : list interface)
         (ds : list descriptor) (d e : descriptor),
    instantiate char_signed Interfaces = Some ds ->
    In d ds -> In e ds ->
    ((d_guid d == d_guid e) = true <->
     hex_digits (c_string (iface_iid (d_interface d)))
     = hex_digits (c_string (iface_iid (d_interface e)))).
Proof.
  intros char_signed Interfaces ds d e Hinst Hd He.
  unfold instantiate in Hinst.
  destruct (distinct_bases (IUnknown :: Interfaces)); [| discriminate Hinst].
  pose proof (descriptors_guid _ _ _ Hinst) as Hall.
  rewrite Forall_forall in Hall.
  pose proof (__guid_parses _ _ _ (Hall d Hd)) as Pd.
  pose proof (__guid_parses _ _ _ (Hall e He)) as Pe.
  exact (parsed_eq_digits _ _ _ _ _ Pd Pe).
Qed.

Lemma registry_entries_equal_by_digits_witness :
  (d_guid (mkDescriptor IFoo IID_IFoo) == d_guid (mkDescriptor IBar IID_IFoo)) = true <->
  hex_digits (c_string (iface_iid (d_interface (mkDescriptor IFoo IID_IFoo))))
  = hex_digits (c_string (iface_iid (d_interface (mkDescriptor IBar IID_IFoo)))).
Proof.
  apply (registry_entries_equal_by_digits true [IFoo; IBar]
           [IUnknown_descriptor; mkDescriptor IFoo IID_IFoo;
            mkDescriptor IBar IID_IFoo]).
  - vm_compute; reflexivity.
  - simpl; auto.
  - simpl; auto.
Defined.

(* ------------------------------------------------------------------------- *)
(** ** Argument checks and result codes                                      *)
(* ------------------------------------------------------------------------- *)

(** The loop at index [i] has the arguments from the [i]th on to look at. *)
Lemma PI_SAFECALL_CHECKARGS_loop_skipn (ps : list pointer) (remaining : nat) :
  forall i : nat,
    (i + remaining = List.length ps)%nat ->
    PI_SAFECALL_CHECKARGS_loop ps i remaining
    = if existsb is_null (skipn i ps) then Some E_POINTER else None.
Proof.
  induction remaining as [| r IH]; intros i Hi; cbn [PI_SAFECALL_CHECKARGS_loop].
  - rewrite skipn_all2 by lia. reflexivity.
  - destruct (nth_error ps i) as [p |] eqn:Hp.
    + destruct (nth_error_split ps i Hp) as (l1 & l2 & -> & <-).
      rewrite app_nth2, Nat.sub_diag by lia. cbn [nth].
      rewrite skipn_app, skipn_all, Nat.sub_diag. cbn [skipn app existsb].
      destruct (is_null p); [reflexivity |]. cbn [orb].
      rewrite IH by (rewrite length_app in Hi |- *; simpl in Hi |- *; lia).
      replace (S (List.length l1)) with (List.length (l1 ++ [p]))
        by (rewrite length_app; simpl; lia).
      change (l1 ++ p :: l2) with (l1 ++ [p] ++ l2). rewrite app_assoc.
      rewrite skipn_app, skipn_all, Nat.sub_diag. reflexivity.
    + apply nth_error_None in Hp. lia.
Qed.

(** X8: [PI_SAFECALL_CHECKARGS] returns [E_POINTER] out of the function
    that uses it exactly when one of the listed arguments is null; with
    every argument non-null control reaches the end of the block. *)
Theorem PI_SAFECALL_CHECKARGS_null_argument :
  forall args : list pointer,
    (PI_SAFECALL_CHECKARGS args = Some E_POINTER <-> In nullptr args) /\
    (PI_SAFECALL_CHECKARGS args = None <-> ~ In nullptr args).
Proof.
  intros args. unfold PI_SAFECALL_CHECKARGS.
  rewrite PI_SAFECALL_CHECKARGS_loop_skipn by reflexivity. cbn [skipn].
  assert (H : existsb is_null args = true <-> In nullptr args).
  { rewrite existsb_exists. split.
    - intros (p & Hin & Hp). destruct p; try discriminate Hp. exact Hin.
    - intros Hin. now exists nullptr. }
  destruct (existsb is_null args).
  - pose proof (proj1 H eq_refl) as Hin.
    split; split; auto; try discriminate. intros Hno. now elim Hno.
  - assert (Hno : ~ In nullptr args).
    { intros Hin. apply H in Hin. discriminate Hin. }
    split; split; auto; try discriminate. intros Hin. now elim Hno.
Qed.

(** X9: the result codes are distinct, [S_OK] is 0, and every other
    code has bit 31 set: as the [int] enumerators of [pi.h] the error
    codes are the negative values, and converted back to 32 bits they are
    the [uint32_t] enumerators of the later revision. *)
Theorem SafeResult_codes :
  forall r s : SafeResult,
    (SafeResult_int r < 0 <-> r <> S_OK) /\
    (SafeResult_int r = 0 <-> r = S_OK) /\
    INT_MIN <= SafeResult_int r <= INT_MAX /\
    to_uint (SafeResult_int r) = SafeResult_value r /\
    (SafeResult_value r = SafeResult_value s <-> r = s).
Proof.
  intros r s. split; [| split; [| split; [| split]]].
  - destruct r; vm_compute; split; intros H; try discriminate H;
      try reflexivity; now elim H.
  - destruct r; vm_compute; split; intros H; try discriminate H; reflexivity.
  - destruct r; vm_compute; split; discriminate.
  - destruct r; reflexivity.
  - destruct r, s; vm_compute; split; intros H; try discriminate H; reflexivity.
Qed.

(* ------------------------------------------------------------------------- *)
(** ** The two counters                                                      *)
(* ------------------------------------------------------------------------- *)

Lemma invariant_started (o : UnknownImpl) :
  invariant o -> 0 < refCountCom o + refCountSharedPtr o -> refStarted o = true.
Proof.
  intros (_ & _ & Hn & _) Hpos.
  destruct (refStarted o); [reflexivity |].
  destruct (Hn eq_refl). lia.
Qed.

(** [Release] of the reference that [AddRef] has just added. *)
Lemma Release_acquired (o : UnknownImpl) :
  invariant o ->
  Release (acquired o)
  = Normal (refCountCom o, if refStarted o then Alive o else Deleted).
Proof.
  intros (Hc & Hs & Hn & Hp & Hm).
  rewrite Release_ok by (simpl; auto; lia).
  destruct o as [c s st m]; simpl in *. subst m.
  replace (c + 1 - 1) with c by lia.
  destruct st.
  - specialize (Hp eq_refl).
    destruct (both_zero_cases c s Hc Hs) as [(_ & -> & ->) | (-> & _)];
      [lia | reflexivity].
  - destruct (Hn eq_refl) as [-> ->]. reflexivity.
Qed.

(** X10: a reference taken with [AddRef] and given back with [Release]
    leaves an object that was referenced before exactly as it was, the
    calls returning the count plus one and the count; on an object that
    had no reference yet the [Release] returns 0 and destroys it. *)
Theorem AddRef_then_Release :
  forall o : UnknownImpl,
    invariant o ->
    refCountCom o + refCountSharedPtr o < INT_MAX ->
    exists o' : UnknownImpl,
      AddRef o = Normal (refCountCom o + 1, o') /\
      Release o'
      = Normal (refCountCom o, if refStarted o then Alive o else Deleted).
Proof.
  intros o Hinv Hmax. exists (acquired o).
  split; [now apply AddRef_ok | now apply Release_acquired].
Qed.

Lemma AddRef_then_Release_witness :
  exists o' : UnknownImpl,
    AddRef (mkUnknownImpl 2 1 true false)
    = Normal (refCountCom (mkUnknownImpl 2 1 true false) + 1, o') /\
    Release o'
    = Normal (refCountCom (mkUnknownImpl 2 1 true false),
              if refStarted (mkUnknownImpl 2 1 true false)
              then Alive (mkUnknownImpl 2 1 true false) else Deleted).
Proof.
  apply (AddRef_then_Release (mkUnknownImpl 2 1 true false)).
  - unfold invariant; simpl. repeat split; try lia; discriminate.
  - vm_compute; reflexivity.
Defined.

(** X11: a handle taken with [shared_ptr] and dropped again leaves an
    object that was referenced before exactly as it was; on an object
    that had no reference yet the handle's deleter destroys it. *)
Theorem shared_ptr_then_deleter :
  forall o : UnknownImpl,
    invariant o ->
    refCountCom o + refCountSharedPtr o < INT_MAX ->
    exists o' : UnknownImpl,
      shared_ptr o = Normal o' /\
      refCountSharedPtr o' = refCountSharedPtr o + 1 /\
      refCountCom o' = refCountCom o /\
      shared_ptr_deleter o'
      = Normal (if refStarted o then Alive o else Deleted).
Proof.
  intros o Hinv Hmax.
  exists (mkUnknownImpl (refCountCom o) (refCountSharedPtr o + 1) true false).
  split; [now apply shared_ptr_ok |].
  split; [reflexivity |]. split; [reflexivity |].
  destruct Hinv as (Hc & Hs & Hn & Hp & Hm).
  rewrite shared_ptr_deleter_ok by (simpl; auto; lia).
  destruct o as [c s st m]; simpl in *. subst m.
  replace (s + 1 - 1) with s by lia.
  destruct st.
  - specialize (Hp eq_refl).
    destruct (both_zero_cases s c Hs Hc) as [(_ & -> & ->) | (-> & _)];
      [lia | reflexivity].
  - destruct (Hn eq_refl) as [-> ->]. reflexivity.
Qed.

Lemma shared_ptr_then_deleter_witness :
  exists o' : UnknownImpl,
    shared_ptr new_UnknownImpl = Normal o' /\
    refCountSharedPtr o' = refCountSharedPtr new_UnknownImpl + 1 /\
    refCountCom o' = refCountCom new_UnknownImpl /\
    shared_ptr_deleter o'
    = Normal (if refStarted new_UnknownImpl
              then Alive new_UnknownImpl else Deleted).
Proof.
  apply (shared_ptr_then_deleter new_UnknownImpl).
  - unfold invariant; simpl. repeat split; try lia; discriminate.
  - vm_compute; reflexivity.
Defined.

(** X12: where an external reference and a shared handle are both
    outstanding, it makes no difference which of the two is released
    first: both orders return, end in the same state, and destroy the
    object exactly when these were the last reference and the last
    handle. *)
Theorem releases_commute :
  forall (Interfaces : list descriptor) (o : UnknownImpl),
    invariant o ->
    0 < refCountCom o -> 0 < refCountSharedPtr o ->
    run Interfaces [CallRelease; CallDeleter] (Alive o)
    = run Interfaces [CallDeleter; CallRelease] (Alive o) /\
    run Interfaces [CallRelease; CallDeleter] (Alive o)
    = Normal (if is_zero (refCountCom o - 1) && is_zero (refCountSharedPtr o - 1)
              then Deleted
              else Alive (mkUnknownImpl (refCountCom o - 1)
                                        (refCountSharedPtr o - 1) true false)).
Proof.
  intros Interfaces o Hinv Hc Hs.
  pose proof (invariant_started o Hinv ltac:(lia)) as Hst.
  destruct Hinv as (_ & _ & _ & _ & Hm).
  assert (R : run Interfaces [CallRelease; CallDeleter] (Alive o)
              = Normal (if is_zero (refCountCom o - 1)
                           && is_zero (refCountSharedPtr o - 1)
                        then Deleted
                        else Alive (mkUnknownImpl (refCountCom o - 1)
                                      (refCountSharedPtr o - 1) true false))).
  { cbn [run step]. rewrite Release_ok by assumption. cbn [bind ret snd].
    replace (is_zero (refCountSharedPtr o)) with false
      by (unfold is_zero; symmetry; apply Z.eqb_neq; lia).
    rewrite andb_false_r. cbn [bind step].
    rewrite shared_ptr_deleter_ok by (simpl; auto). cbn [bind ret].
    cbn [refCountCom refCountSharedPtr]. rewrite andb_comm.
    now destruct (is_zero (refCountCom o - 1) && is_zero (refCountSharedPtr o - 1)). }
  split; [| exact R]. rewrite R.
  cbn [run step]. rewrite shared_ptr_deleter_ok by assumption. cbn [bind ret].
  replace (is_zero (refCountCom o)) with false
    by (unfold is_zero; symmetry; apply Z.eqb_neq; lia).
  rewrite andb_false_r. cbn [bind step].
  rewrite Release_ok by (simpl; auto). cbn [bind ret snd].
  cbn [refCountCom refCountSharedPtr].
  now destruct (is_zero (refCountCom o - 1) && is_zero (refCountSharedPtr o - 1)).
Qed.

Lemma releases_commute_witness :
  run [] [CallRelease; CallDeleter] (Alive (mkUnknownImpl 1 1 true false))
  = run [] [CallDeleter; CallRelease] (Alive (mkUnknownImpl 1 1 true false)) /\
  run [] [CallRelease; CallDeleter] (Alive (mkUnknownImpl 1 1 true false))
  = Normal (if is_zero (refCountCom (mkUnknownImpl 1 1 true false) - 1)
               && is_zero (refCountSharedPtr (mkUnknownImpl 1 1 true false) - 1)
            then Deleted
            else Alive (mkUnknownImpl
                          (refCountCom (mkUnknownImpl 1 1 true false) - 1)
                          (refCountSharedPtr (mkUnknownImpl 1 1 true false) - 1)
                          true false)).
Proof.
  apply (releases_commute [] (mkUnknownImpl 1 1 true false)).
  - unfold invariant; simpl. repeat split; try lia; discriminate.
  - simpl; lia.
  - simpl; lia.
Defined.

(** X13: on an object between calls, [AddRef] and [shared_ptr] return
    exactly when the sum of the two counters, which [assertAddReference]
    computes, and the counter they increment both stay in the range of
    [int]; otherwise the signed arithmetic overflows. *)
Theorem acquire_within_int :
  forall o : UnknownImpl,
    invariant o ->
    AddRef o
    = (if (refCountCom o + refCountSharedPtr o <=? INT_MAX)
          && (refCountCom o <? INT_MAX)
       then Normal (refCountCom o + 1, acquired o)
       else Fault SignedOverflow) /\
    shared_ptr o
    = (if (refCountCom o + refCountSharedPtr o <=? INT_MAX)
          && (refCountSharedPtr o <? INT_MAX)
       then Normal (mkUnknownImpl (refCountCom o) (refCountSharedPtr o + 1)
                                  true false)
       else Fault SignedOverflow).
Proof.
  intros o (Hc & Hs & Hn & Hp & Hm).
  destruct o as [c s st m]; simpl in *. subst m.
  unfold AddRef, shared_ptr, lock, assertAddReference, add_int, incr_int,
    assert, acquired; simpl; int_bounds.
  destruct st.
  - specialize (Hp eq_refl). split; zcmp; reflexivity.
  - destruct (Hn eq_refl) as [-> ->]. split; reflexivity.
Qed.

Lemma acquire_within_int_witness :
  AddRef (mkUnknownImpl INT_MAX 1 true false)
  = (if (refCountCom (mkUnknownImpl INT_MAX 1 true false)
         + refCountSharedPtr (mkUnknownImpl INT_MAX 1 true false) <=? INT_MAX)
        && (refCountCom (mkUnknownImpl INT_MAX 1 true false) <? INT_MAX)
     then Normal (refCountCom (mkUnknownImpl INT_MAX 1 true false) + 1,
                  acquired (mkUnknownImpl INT_MAX 1 true false))
     else Fault SignedOverflow) /\
  shared_ptr (mkUnknownImpl INT_MAX 1 true false)
  = (if (refCountCom (mkUnknownImpl INT_MAX 1 true false)
         + refCountSharedPtr (mkUnknownImpl INT_MAX 1 true false) <=? INT_MAX)
        && (refCountSharedPtr (mkUnknownImpl INT_MAX 1 true false) <? INT_MAX)
     then Normal (mkUnknownImpl
                    (refCountCom (mkUnknownImpl INT_MAX 1 true false))
                    (refCountSharedPtr (mkUnknownImpl INT_MAX 1 true false) + 1)
                    true false)
     else Fault SignedOverflow).
Proof.
  apply (acquire_within_int (mkUnknownImpl INT_MAX 1 true false)).
  unfold invariant; simpl. repeat split; try discriminate; vm_compute; discriminate.
Defined.

(** ** Sequences of counting operations *)

Section Sequences.

Variable Interfaces : list descriptor.

Lemma run_snoc (cs : list call) (c : call) (l : lifetime) :
  run Interfaces (cs ++ [c]) l
  = (l' <- run Interfaces cs l ;; step Interfaces c l').
Proof.
  rewrite run_app. destruct (run Interfaces cs l) as [l' |]; [| reflexivity].
  cbn [bind run]. now destruct (step Interfaces c l').
Qed.

(** One counting operation that returns and leaves the object alive. *)
Lemma step_counts (p : list refop) (x : refop) (o : UnknownImpl) :
  step Interfaces (call_of x) (Alive (object_after p)) = Normal (Alive o) ->
  o = object_after (p ++ [x]).
Proof.
  rewrite object_after_snoc. intros H. destruct x; cbn [call_of step] in H.
  - destruct (AddRef (object_after p)) as [r |] eqn:Hr; [| discriminate H].
    apply AddRef_inv in Hr as (-> & _). injection H as <-.
    unfold acquired, object_after; simpl. f_equal; lia.
  - destruct (Release (object_after p)) as [r |] eqn:Hr; [| discriminate H].
    destruct (Release_inv _ _ Hr) as (Hm & Hst & Hpos).
    rewrite Release_ok in Hr by assumption. injection Hr as <-.
    cbn [bind snd] in H. unfold ret in H.
    match type of H with context [if ?b then _ else _] => destruct b end;
      [discriminate H |].
    injection H as <-. unfold object_after; simpl. f_equal; lia.
  - destruct (shared_ptr (object_after p)) as [o' |] eqn:Hr; [| discriminate H].
    apply shared_ptr_inv in Hr as (-> & _). injection H as <-.
    unfold object_after; simpl. f_equal; lia.
  - destruct (shared_ptr_deleter_inv _ _ H) as (Hm & Hst & Hpos).
    rewrite shared_ptr_deleter_ok in H by assumption.
    match type of H with context [if ?b then _ else _] => destruct b end;
      [discriminate H |].
    injection H as <-. unfold object_after; simpl. f_equal; lia.
Qed.

(** The counters of a live object are what the operations that returned
    have left outstanding. *)
Lemma run_counts (ops : list refop) :
  forall o : UnknownImpl,
    run Interfaces (map call_of ops) (Alive new_UnknownImpl) = Normal (Alive o) ->
    o = object_after ops.
Proof.
  induction ops as [| x p IH] using rev_ind; intros o H.
  - now injection H as <-.
  - rewrite map_app in H. cbn [map] in H. rewrite run_snoc in H.
    destruct (run Interfaces (map call_of p) (Alive new_UnknownImpl))
      as [[o0 |] |]; try discriminate H.
    cbn [bind] in H. rewrite (IH o0 eq_refl) in H. now apply step_counts.
Qed.

Lemma run_new_invariant (ops : list refop) (o : UnknownImpl) :
  run Interfaces (map call_of ops) (Alive new_UnknownImpl) = Normal (Alive o) ->
  invariant o.
Proof.
  intros H.
  apply (run_invariant Interfaces (map call_of ops) (Alive new_UnknownImpl)
           (Alive o)); auto.
  unfold lifetime_invariant, invariant; simpl.
  repeat split; try lia; discriminate.
Qed.

End Sequences.

(** X14: whenever the calls of a sequence of counting operations on a
    new object have all returned and the object is alive, [refCountCom] is
    the number of [AddRef]s less the number of [Release]s, and
    [refCountSharedPtr] the number of handles made less the number
    dropped; neither is negative, [refStarted] is set as soon as there
    was a call, and the mutex is free. *)
Theorem counters_follow_the_calls :
  forall (Interfaces : list descriptor) (ops : list refop) (o : UnknownImpl),
    run Interfaces (map call_of ops) (Alive new_UnknownImpl) = Normal (Alive o) ->
    refCountCom o = outstanding_external ops /\
    refCountSharedPtr o = outstanding_shared ops /\
    0 <= outstanding_external ops /\ 0 <= outstanding_shared ops /\
    refStarted o = negb (Nat.eqb (List.length ops) 0) /\
    refMutex o = false.
Proof.
  intros Interfaces ops o H.
  pose proof (run_new_invariant Interfaces ops o H) as (Hc & Hs & _).
  apply run_counts in H. subst o.
  cbn [object_after refCountCom refCountSharedPtr refStarted refMutex] in *.
  auto 6.
Qed.

Lemma counters_follow_the_calls_witness :
  refCountCom (mkUnknownImpl 1 1 true false)
  = outstanding_external [acquireExternal; acquireShared; acquireExternal;
                          releaseExternal] /\
  refCountSharedPtr (mkUnknownImpl 1 1 true false)
  = outstanding_shared [acquireExternal; acquireShared; acquireExternal;
                        releaseExternal] /\
  0 <= outstanding_external [acquireExternal; acquireShared; acquireExternal;
                             releaseExternal] /\
  0 <= outstanding_shared [acquireExternal; acquireShared; acquireExternal;
                           releaseExternal] /\
  refStarted (mkUnknownImpl 1 1 true false)
  = negb (Nat.eqb (List.length [acquireExternal; acquireShared; acquireExternal;
                                releaseExternal]) 0) /\
  refMutex (mkUnknownImpl 1 1 true false) = false.
Proof.
  apply (counters_follow_the_calls []
           [acquireExternal; acquireShared; acquireExternal; releaseExternal]
           (mkUnknownImpl 1 1 true false)).
  vm_compute; reflexivity.
Defined.

(** The call that deletes the object is the last one, a release that
    finds the counters at one and zero. *)
Lemma run_Deleted_last (Interfaces : list descriptor) (ops : list refop) :
  run Interfaces (map call_of ops) (Alive new_UnknownImpl) = Normal Deleted ->
  exists (pre : list refop) (last : refop),
    ops = pre ++ [last] /\
    run Interfaces (map call_of pre) (Alive new_UnknownImpl)
    = Normal (Alive (object_after pre)) /\
    last_release (call_of last) (object_after pre).
Proof.
  intros H.
  destruct ops as [| x p _] using rev_ind; [discriminate H |].
  rewrite map_app in H. cbn [map] in H. rewrite run_snoc in H.
  destruct (run Interfaces (map call_of p) (Alive new_UnknownImpl))
    as [[o |] |] eqn:Hrun; try discriminate H.
  cbn [bind] in H. apply run_counts in Hrun as Ho. subst o.
  apply step_Deleted_iff in H. eauto.
Qed.

Lemma last_release_totals (pre : list refop) (last : refop) :
  last_release (call_of last) (object_after pre) ->
  (last = releaseExternal \/ last = releaseShared) /\
  outstanding_external (pre ++ [last]) = 0 /\
  outstanding_shared (pre ++ [last]) = 0.
Proof.
  intros (_ & _ & Hlast).
  unfold outstanding_external, outstanding_shared. rewrite !total_app.
  fold (outstanding_external pre) (outstanding_shared pre).
  cbn [object_after refCountCom refCountSharedPtr] in Hlast.
  destruct Hlast as [(Hx & Hc & Hs) | (Hx & Hc & Hs)];
    destruct last; try discriminate Hx;
    cbn [total fold_right external_delta shared_delta];
    (split; [auto | split; lia]).
Qed.

(** X15: the object is never destroyed while a reference or a handle is
    outstanding: when a sequence of counting operations on a new object
    ends with the object deleted, its last operation is a release, it
    found the object alive, and everything acquired has been released. *)
Theorem deleted_only_when_all_released :
  forall (Interfaces : list descriptor) (ops : list refop),
    run Interfaces (map call_of ops) (Alive new_UnknownImpl) = Normal Deleted ->
    outstanding_external ops = 0 /\ outstanding_shared ops = 0 /\
    exists (pre : list refop) (last : refop),
      ops = pre ++ [last] /\
      (last = releaseExternal \/ last = releaseShared) /\
      run Interfaces (map call_of pre) (Alive new_UnknownImpl)
      = Normal (Alive (object_after pre)).
Proof.
  intros Interfaces ops H.
  destruct (run_Deleted_last Interfaces ops H) as (pre & last & -> & Hrun & Hlast).
  destruct (last_release_totals pre last Hlast) as (Hkind & Hext & Hsh).
  split; [assumption |]. split; [assumption |].
  exists pre, last. auto.
Qed.

Lemma deleted_only_when_all_released_witness :
  outstanding_external [acquireShared; acquireExternal; releaseShared;
                        releaseExternal] = 0 /\
  outstanding_shared [acquireShared; acquireExternal; releaseShared;
                      releaseExternal] = 0 /\
  exists (pre : list refop) (last : refop),
    [acquireShared; acquireExternal; releaseShared; releaseExternal]
    = pre ++ [last] /\
    (last = releaseExternal \/ last = releaseShared) /\
    run [] (map call_of pre) (Alive new_UnknownImpl)
    = Normal (Alive (object_after pre)).
Proof.
  apply (deleted_only_when_all_released []
           [acquireShared; acquireExternal; releaseShared; releaseExternal]).
  vm_compute; reflexivity.
Defined.

(** X16: a release that no acquisition of its kind stands against does
    not take a counter below zero: on the object that a sequence of
    returned counting operations has left, [Release] with no external
    reference outstanding and the handle's deleter with no handle
    outstanding stop at their assertion, however many references of the
    other kind there are. *)
Theorem release_without_acquire_asserts :
  forall (Interfaces : list descriptor) (ops : list refop) (o : UnknownImpl),
    run Interfaces (map call_of ops) (Alive new_UnknownImpl) = Normal (Alive o) ->
    (outstanding_external ops = 0 -> Release o = Fault AssertionFailed) /\
    (outstanding_shared ops = 0 -> shared_ptr_deleter o = Fault AssertionFailed).
Proof.
  intros Interfaces ops o H. apply run_counts in H. subst o.
  unfold object_after, Release, shared_ptr_deleter, lock, assert.
  cbn [refMutex refStarted refCountCom refCountSharedPtr set_refMutex bind].
  split; intros ->; destruct (negb (Nat.eqb (List.length ops) 0)); reflexivity.
Qed.

Lemma release_without_acquire_asserts_witness :
  (outstanding_external [acquireShared; acquireShared] = 0 ->
   Release (mkUnknownImpl 0 2 true false) = Fault AssertionFailed) /\
  (outstanding_shared [acquireShared; acquireShared] = 0 ->
   shared_ptr_deleter (mkUnknownImpl 0 2 true false) = Fault AssertionFailed).
Proof.
  apply (release_without_acquire_asserts [] [acquireShared; acquireShared]
           (mkUnknownImpl 0 2 true false)).
  vm_compute; reflexivity.
Defined.

(* ------------------------------------------------------------------------- *)
(** ** Lookup                                                                *)
(* ------------------------------------------------------------------------- *)

(** X18: what [QueryInterface] answers, the result code and the pointer
    in the slot, depends on the arguments and the registry alone and not
    on the state of the counters: two calls with the same arguments that
    return give the same code and the same pointer. *)
Theorem QueryInterface_answer_is_stable :
  forall (Interfaces : list descriptor) (o1 o2 : UnknownImpl)
         (pguid : option GUID) (ppvObject : option pointer)
         (r1 r2 : SafeResult * option pointer * UnknownImpl),
    QueryInterface Interfaces o1 pguid ppvObject = Normal r1 ->
    QueryInterface Interfaces o2 pguid ppvObject = Normal r2 ->
    fst r1 = fst r2.
Proof.
  intros Interfaces o1 o2 pguid ppvObject r1 r2.
  destruct pguid as [guid |], ppvObject as [pv |];
    try (intros H1 H2; injection H1 as <-; injection H2 as <-; reflexivity).
  rewrite !QueryInterface_find.
  destruct (find _ _) as [d |].
  - destruct (AddRef o1) as [a1 |], (AddRef o2) as [a2 |];
      try discriminate. cbn [bind ret].
    intros H1 H2; injection H1 as <-; injection H2 as <-; reflexivity.
  - intros H1 H2; injection H1 as <-; injection H2 as <-; reflexivity.
Qed.

Lemma QueryInterface_answer_is_stable_witness :
  fst (S_OK, Some (this_as IFoo), mkUnknownImpl 1 0 true false)
  = fst (S_OK, Some (this_as IFoo), mkUnknownImpl 6 2 true false).
Proof.
  apply (QueryInterface_answer_is_stable
           [mkDescriptor IFoo IID_IFoo] new_UnknownImpl
           (mkUnknownImpl 5 2 true false) (Some IID_IFoo) (Some nullptr));
    vm_compute; reflexivity.
Defined.

(** X19: a reference obtained through [QueryInterface] and given back
    with [Release] leaves an object that was referenced before exactly as
    it was; on an object that had no reference yet the [Release] destroys
    it. *)
Theorem QueryInterface_then_Release :
  forall (Interfaces : list descriptor) (o : UnknownImpl) (guid : GUID)
         (pvObject : pointer) (d : descriptor),
    In d (IUnknown_descriptor :: Interfaces) ->
    (guid == d_guid d) = true ->
    invariant o ->
    refCountCom o + refCountSharedPtr o < INT_MAX ->
    run Interfaces [CallQueryInterface (Some guid) (Some pvObject); CallRelease]
        (Alive o)
    = Normal (if refStarted o then Alive o else Deleted).
Proof.
  intros Interfaces o guid pvObject d Hin Hd Hinv Hmax.
  destruct (first_match guid _ d Hin Hd) as (pre & m & post & Hreg & Hpre & Hm).
  pose proof (find_first_match guid pre m post Hpre Hm) as F.
  rewrite <- Hreg in F.
  cbn [run step]. rewrite QueryInterface_find, F, (AddRef_ok o Hinv Hmax).
  cbn [bind ret snd run step]. rewrite (Release_acquired o Hinv).
  cbn [bind ret snd]. now destruct (refStarted o).
Qed.

Lemma QueryInterface_then_Release_witness :
  run [mkDescriptor IFoo IID_IFoo]
      [CallQueryInterface (Some IID_IFoo) (Some nullptr); CallRelease]
      (Alive (mkUnknownImpl 0 1 true false))
  = Normal (if refStarted (mkUnknownImpl 0 1 true false)
            then Alive (mkUnknownImpl 0 1 true false) else Deleted).
Proof.
  apply (QueryInterface_then_Release [mkDescriptor IFoo IID_IFoo]
           (mkUnknownImpl 0 1 true false) IID_IFoo nullptr
           (mkDescriptor IFoo IID_IFoo)).
  - simpl; auto.
  - vm_compute; reflexivity.
  - unfold invariant; simpl. repeat split; try lia; discriminate.
  - vm_compute; reflexivity.
Defined.

(** X20: lookup by text.  In a class that compiles, [QueryInterface]
    with the identifier that [string_to_guid] returns for a text answers
    with the first of [IUnknown, Interfaces...], in that order, whose
    declared text has the same hex digit values, and with
    [E_NOINTERFACE], slot and object untouched, when there is none. *)
Theorem lookup_by_identifier_text :
  forall (char_signed : bool) (Interfaces : list interface)
         (ds : list descriptor) (t : string) (g : GUID)
         (o : UnknownImpl) (pvObject : pointer),
    instantiate char_signed Interfaces = Some (IUnknown_descriptor :: ds) ->
    string_to_guid char_signed t = Normal (Some g) ->
    invariant o ->
    refCountCom o + refCountSharedPtr o < INT_MAX ->
    (exists (pre : list interface) (J : interface) (post : list interface),
        IUnknown :: Interfaces = pre ++ J :: post /\
        (forall K, In K pre ->
                   hex_digits (c_string (iface_iid K)) <> hex_digits (c_string t)) /\
        hex_digits (c_string (iface_iid J)) = hex_digits (c_string t) /\
        QueryInterface ds o (Some g) (Some pvObject)
        = Normal (S_OK, Some (this_as J), acquired o)) \/
    ((forall K, In K (IUnknown :: Interfaces) ->
                hex_digits (c_string (iface_iid K)) <> hex_digits (c_string t)) /\
     QueryInterface ds o (Some g) (Some pvObject)
     = Normal (E_NOINTERFACE, Some pvObject, o)).
Proof.
  intros char_signed Interfaces ds t g o pvObject Hinst Ht Hinv Hmax.
  unfold instantiate in Hinst.
  destruct (distinct_bases (IUnknown :: Interfaces)); [| discriminate Hinst].
  pose proof (descriptors_interfaces _ _ _ Hinst) as Hmap.
  pose proof (descriptors_guid _ _ _ Hinst) as Hall.
  rewrite Forall_forall in Hall.
  assert (Hdig : forall e, In e (IUnknown_descriptor :: ds) ->
             ((g == d_guid e) = true <->
              hex_digits (c_string (iface_iid (d_interface e)))
              = hex_digits (c_string t))).
  { intros e He. pose proof (__guid_parses _ _ _ (Hall e He)) as Pe.
    rewrite (parsed_eq_digits _ _ _ _ _ Ht Pe). split; congruence. }
  rewrite QueryInterface_find.
  destruct (find (fun d => g == d_guid d) (IUnknown_descriptor :: ds))
    as [m |] eqn:Hfind.
  - left. destruct (find_some _ _ Hfind) as [Hin Hmatch].
    destruct (first_match g _ m Hin Hmatch)
      as (pre & m' & post & Hreg & Hpre & Hm').
    pose proof (find_first_match g pre m' post Hpre Hm') as F.
    rewrite <- Hreg, Hfind in F. injection F as <-.
    exists (map d_interface pre), (d_interface m), (map d_interface post).
    split; [| split; [| split]].
    + rewrite <- Hmap, Hreg, map_app. reflexivity.
    + intros K HK Heq. apply in_map_iff in HK as (e & <- & He).
      apply Hdig in Heq; [| rewrite Hreg; apply in_or_app; now left].
      unfold no_match in Hpre. rewrite forallb_forall in Hpre.
      specialize (Hpre e He). rewrite Heq in Hpre. discriminate Hpre.
    + now apply Hdig.
    + now rewrite (AddRef_ok o Hinv Hmax).
  - right. split; [| reflexivity].
    intros K HK Heq. rewrite <- Hmap in HK.
    apply in_map_iff in HK as (e & <- & He).
    apply Hdig in Heq; [| assumption].
    pose proof (find_none _ _ Hfind e He) as Hno. cbv beta in Hno. congruence.
Qed.

Lemma lookup_by_identifier_text_witness :
  (exists (pre : list interface) (J : interface) (post : list interface),
      IUnknown :: [IFoo; IBar] = pre ++ J :: post /\
      (forall K, In K pre ->
                 hex_digits (c_string (iface_iid K))
                 <> hex_digits (c_string "6f1d2a3b-4c5d-4e6f-8091-a2b3c4d5e6f7")) /\
      hex_digits (c_string (iface_iid J))
      = hex_digits (c_string "6f1d2a3b-4c5d-4e6f-8091-a2b3c4d5e6f7") /\
      QueryInterface [mkDescriptor IFoo IID_IFoo; mkDescriptor IBar IID_IFoo]
                     new_UnknownImpl (Some IID_IFoo) (Some nullptr)
      = Normal (S_OK, Some (this_as J), acquired new_UnknownImpl)) \/
  ((forall K, In K (IUnknown :: [IFoo; IBar]) ->
              hex_digits (c_string (iface_iid K))
              <> hex_digits (c_string "6f1d2a3b-4c5d-4e6f-8091-a2b3c4d5e6f7")) /\
   QueryInterface [mkDescriptor IFoo IID_IFoo; mkDescriptor IBar IID_IFoo]
                  new_UnknownImpl (Some IID_IFoo) (Some nullptr)
   = Normal (E_NOINTERFACE, Some nullptr, new_UnknownImpl)).
Proof.
  apply (lookup_by_identifier_text true [IFoo; IBar]
           [mkDescriptor IFoo IID_IFoo; mkDescriptor IBar IID_IFoo]
           "6f1d2a3b-4c5d-4e6f-8091-a2b3c4d5e6f7" IID_IFoo
           new_UnknownImpl nullptr).
  - vm_compute; reflexivity.
  - vm_compute; reflexivity.
  - unfold invariant; simpl. repeat split; try lia; discriminate.
  - vm_compute; reflexivity.
Defined.

(* ------------------------------------------------------------------------- *)
(** ** Threads                                                               *)
(* ------------------------------------------------------------------------- *)

Section Machine.

Variable Interfaces : list descriptor.

(** The statements of a call, run without another thread in between, are
    the member function: in both revisions. *)
Lemma finish_call (rev : revision) (op : refop) (o : UnknownImpl) :
  finish rev op 8 at_lock (Alive o)
  = Some (step Interfaces (call_of op) (Alive o)).
Proof.
  destruct o as [c s st m].
  destruct op, rev, m, st;
    repeat first
      [ progress cbn
      | progress unfold AddRef, Release, shared_ptr, shared_ptr_deleter, lock,
          assertAddReference, add_int, incr_int, decr_int, assert, TryDelete,
          delete_this, is_zero, unlock, ret
      | match goal with
        | |- context [Z.gtb ?a ?b] => rewrite (Z.gtb_ltb a b)
        | |- context [Z.eqb ?a ?b] => destruct (Z.eqb_spec a b)
        | |- context [Z.ltb ?a ?b] => destruct (Z.ltb_spec a b)
        | |- context [Z.leb ?a ?b] => destruct (Z.leb_spec a b)
        end ];
    first [reflexivity | int_bounds; lia].
Qed.

Lemma finish_S (rev : revision) (op : refop) (n : nat) (p : point)
    (l : lifetime) :
  finish rev op (S n) p l
  = match statement rev op p l with
    | Waits => Some (Fault MutexLocked)
    | Goes p' l' => finish rev op n p' l'
    | Returns l' => Some (Normal l')
    | Stops f => Some (Fault f)
    end.
Proof. reflexivity. Qed.

(** A thread waits at the making of the guard only, and only for a
    mutex that is held. *)
Lemma statement_Waits (rev : revision) (op : refop) (p : point) (l : lifetime) :
  statement rev op p l = Waits ->
  p = at_lock /\ exists o, l = Alive o /\ refMutex o = true.
Proof.
  destruct l as [o |]; [| discriminate].
  destruct p; cbn; unfold lock; destruct (refMutex o) eqn:Hm; cbn;
    repeat match goal with
           | |- context [match ?x with _ => _ end] => destruct x eqn:?
           end; try discriminate.
  intros _. eauto.
Qed.

(** A statement that leads to another one leaves the object alive, and
    leads neither back to the making of the guard nor, in the later
    revision, to the [delete guard] of [pi.h]. *)
Lemma statement_Goes (rev : revision) (op : refop) (p p' : point)
    (l l' : lifetime) :
  statement rev op p l = Goes p' l' ->
  p <> at_delete_this /\ p' <> at_lock /\
  (rev = later_revision -> p' <> at_delete_guard) /\
  exists o o', l = Alive o /\ l' = Alive o'.
Proof.
  destruct l as [o |]; [| discriminate].
  destruct p; cbn; unfold lock; destruct (refMutex o) eqn:Hm; cbn;
    repeat match goal with
           | |- context [match ?x with _ => _ end] => destruct x eqn:?
           end; try discriminate;
    intros H; inversion H; subst;
    (split; [discriminate |]);
    (split; [first [discriminate | now destruct op] |]);
    (split; [intros Hr; first [discriminate Hr | discriminate | now destruct op]
            | eauto]).
Qed.

(** In the later revision a thread keeps the mutex from the making of
    the guard to the statement before [delete this] or to its return. *)
Lemma statement_keeps_mutex (op : refop) (p p' : point) (o o' : UnknownImpl) :
  statement later_revision op p (Alive o) = Goes p' (Alive o') ->
  p <> at_delete_guard ->
  p = at_lock \/ refMutex o = true ->
  p' = at_delete_this \/ refMutex o' = true.
Proof.
  destruct o as [c s st m]. destruct m.
  all: destruct p; cbn; unfold lock; cbn;
    repeat match goal with
           | |- context [match ?x with _ => _ end] => destruct x eqn:?
           end; try discriminate;
    intros H Hp Hm; inversion H; subst; cbn in *.
  all: try solve [now left].
  all: try solve [now elim Hp].
  all: destruct Hm as [Hm | Hm]; try discriminate Hm; try (now right);
    destruct op; cbn; now right.
Qed.

Lemma nth_error_set_nth (A : Type) (x : A) (l : list A) :
  forall i j : nat,
    nth_error (set_nth i x l) j
    = if Nat.eqb i j
      then match nth_error l i with Some _ => Some x | None => None end
      else nth_error l j.
Proof.
  induction l as [| y l IH]; intros [| i] [| j]; cbn [set_nth nth_error Nat.eqb];
    try reflexivity.
  - now destruct (Nat.eqb i j), i.
  - apply IH.
Qed.

(** ** The lock order *)

Lemma firstn_app_le (A : Type) (t u : list A) (k : nat) :
  (k <= List.length t)%nat -> firstn k (t ++ u) = firstn k t.
Proof.
  intros Hk. rewrite firstn_app.
  replace (k - List.length t)%nat with 0%nat by lia.
  cbn. apply app_nil_r.
Qed.

Lemma legal_inv (t : list refop) (x : refop) :
  legal (t ++ [x]) = true ->
  (forall k, (1 <= k <= List.length t)%nat -> held (firstn k t) = true) /\
  (held (t ++ [x]) = true \/
   outstanding_external (t ++ [x]) = 0 /\ outstanding_shared (t ++ [x]) = 0).
Proof.
  unfold legal. rewrite length_app. cbn [List.length].
  replace (List.length t + 1 - 1)%nat with (List.length t) by lia.
  replace (Nat.eqb (List.length t + 1) 0) with false
    by (symmetry; apply Nat.eqb_neq; lia).
  cbn [orb]. intros H. apply andb_prop in H as [Hall Hlast].
  rewrite forallb_forall in Hall. split.
  - intros k Hk. rewrite <- (firstn_app_le _ t [x] k) by lia.
    apply Hall, in_seq. lia.
  - apply orb_prop in Hlast as [Hh | Hz]; [now left | right].
    apply andb_prop in Hz as [H1 H2]. now rewrite Z.eqb_eq in H1, H2.
Qed.

Lemma legal_prefix (t : list refop) (x : refop) :
  legal (t ++ [x]) = true -> legal t = true.
Proof.
  intros H. destruct (legal_inv t x H) as [Hheld _].
  unfold legal. apply andb_true_intro. split.
  - apply forallb_forall. intros k Hk. apply in_seq in Hk.
    apply Hheld. lia.
  - destruct t as [| y t]; [reflexivity |].
    rewrite <- (firstn_all (y :: t)). rewrite Hheld; [reflexivity |].
    cbn [List.length]. lia.
Qed.

(** The calls of a legal lock order, made one after the other, return. *)
Lemma legal_run (t : list refop) :
  legal t = true ->
  exists l, run Interfaces (map call_of t) (Alive new_UnknownImpl) = Normal l.
Proof.
  destruct t as [| x t _] using rev_ind; [eexists; reflexivity |].
  intros H. destruct (legal_inv t x H) as [Hheld Hlast].
  pose proof (run_held Interfaces t (List.length t) (le_n _)) as Hrun.
  rewrite firstn_all in Hrun. specialize (Hrun Hheld).
  assert (Ht : t = [] \/ held t = true).
  { destruct t as [| y t]; [now left | right].
    rewrite <- (firstn_all (y :: t)). apply Hheld. cbn [List.length]. lia. }
  rewrite map_app. cbn [map]. rewrite run_snoc, Hrun. cbn [bind].
  destruct Hlast as [Hh | [Hext Hsh]].
  - rewrite (step_held Interfaces t x Ht Hh). eauto.
  - exists Deleted. apply step_Deleted_iff.
    unfold outstanding_external, outstanding_shared in Hext, Hsh.
    rewrite !total_app in Hext, Hsh.
    fold (outstanding_external t) (outstanding_shared t) in Hext, Hsh.
    cbn [total fold_right] in Hext, Hsh.
    destruct Ht as [-> | Ht]; [destruct x; cbn in Hext, Hsh; lia |].
    apply held_bounds in Ht.
    assert (Hlen : negb (Nat.eqb (List.length t) 0) = true).
    { destruct t; [cbn in Ht; lia | reflexivity]. }
    unfold last_release, object_after. rewrite Hlen.
    cbn [refMutex refStarted refCountCom refCountSharedPtr].
    split; [reflexivity |]. split; [reflexivity |].
    destruct x; cbn [external_delta shared_delta call_of] in *;
      first [lia | left; repeat split; lia | right; repeat split; lia].
Qed.

(** No call can follow the one that deleted the object. *)
Lemma legal_after_delete (t : list refop) (x : refop) :
  run Interfaces (map call_of t) (Alive new_UnknownImpl) = Normal Deleted ->
  legal (t ++ [x]) = false.
Proof.
  intros Hrun. destruct (legal (t ++ [x])) eqn:H; [| reflexivity].
  destruct (legal_inv t x H) as [Hheld _].
  destruct (run_Deleted_last Interfaces t Hrun) as (pre & last & -> & _ & Hlast).
  destruct (last_release_totals pre last Hlast) as (_ & Hext & Hsh).
  specialize (Hheld (List.length (pre ++ [last]))).
  rewrite firstn_all in Hheld.
  rewrite length_app in Hheld at 1. cbn [List.length] in Hheld.
  specialize (Hheld ltac:(lia)). apply held_bounds in Hheld. lia.
Qed.

Lemma order_after_inside (p : point) (op : refop) (t : list refop) :
  p <> at_lock -> order_after p op t = t.
Proof. destruct p; intros H; try reflexivity. now elim H. Qed.

(** ** Every schedule of the later revision *)

Lemma lock_order_step (rev : revision) (k : nat) (m : machine) :
  lock_order (thread_step rev k m) = lock_order m \/
  exists op, lock_order (thread_step rev k m) = lock_order m ++ [op].
Proof.
  unfold thread_step.
  destruct (stopped m); [now left |].
  destruct (nth_error (threads m) k) as [[[| op rest] p] |]; try now left.
  destruct (statement rev op p (object m)); try (now left);
    cbn [lock_order]; destruct p; cbn [order_after]; eauto.
Qed.

Lemma consistent_step (k : nat) (m : machine) :
  consistent Interfaces m ->
  legal (lock_order (thread_step later_revision k m)) = true ->
  consistent Interfaces (thread_step later_revision k m).
Proof.
  intros (Hstop & Hdel & Hstate) Hleg.
  assert (Hleg0 : legal (lock_order m) = true).
  { destruct (lock_order_step later_revision k m) as [E | [op E]];
      rewrite E in Hleg; [assumption | exact (legal_prefix _ _ Hleg)]. }
  unfold thread_step in Hleg |- *. rewrite Hstop in Hleg |- *.
  destruct (nth_error (threads m) k) as [[[| op rest] p] |] eqn:Hk;
    try (now repeat split).
  destruct Hstate as [[Hall Hrun] | [i (op_i & rest_i & p_i & Hi & Hp1 & Hp2
                                           & Hothers & [n Hfin] & Hmutex)]].
  - (* no thread is inside a call: thread k makes its guard *)
    pose proof (Hall k _ Hk) as Hp. cbn [standing] in Hp. subst p.
    destruct (object m) as [o |] eqn:Ho.
    + pose proof (run_new_invariant Interfaces _ _ Hrun) as (_ & _ & _ & _ & Hm).
      cbn [statement] in Hleg |- *. unfold lock in Hleg |- *.
      rewrite Hm in Hleg |- *.
      cbn [lock_order order_after] in Hleg |- *.
      split; [reflexivity |]. split; [exact Hdel |]. right. exists k.
      exists op, rest, (after_lock op). cbn [threads object lock_order].
      split; [| split; [| split; [| split; [| split]]]].
      * rewrite nth_error_set_nth, Nat.eqb_refl, Hk. reflexivity.
      * now destruct op.
      * now destruct op.
      * intros j t Hj Ht. rewrite nth_error_set_nth in Ht.
        destruct (Nat.eqb_spec k j); [congruence |]. eauto.
      * exists 7%nat. pose proof (finish_call later_revision op o) as F.
        change 8%nat with (S 7) in F. rewrite finish_S in F.
        cbn [statement] in F. unfold lock in F. rewrite Hm in F. rewrite F.
        unfold atomic. rewrite map_app. cbn [map].
        unfold atomic in Hrun. now rewrite run_snoc, Hrun.
      * intros _. eexists; split; [reflexivity |]. reflexivity.
    + cbn [statement lock_order order_after] in Hleg.
      now rewrite (legal_after_delete _ op Hrun) in Hleg.
  - destruct (Nat.eq_dec k i) as [-> | Hki].
    + (* the thread inside its call goes on *)
      rewrite Hi in Hk. injection Hk as <- <- <-.
      destruct n as [| n]; [discriminate Hfin |]. cbn [finish] in Hfin.
      destruct (statement later_revision op_i p_i (object m))
        as [| p' l' | l' | f] eqn:Hs.
      * apply statement_Waits in Hs as [Hs _]. contradiction.
      * destruct (statement_Goes _ _ _ _ _ _ Hs)
          as (Hnd & Hnl & Hng & o & o' & Ho & ->).
        cbn [lock_order] in Hleg |- *.
        rewrite order_after_inside in Hleg |- * by assumption.
        split; [reflexivity |]. split.
        { cbn [deleted object]. rewrite Ho in Hdel |- *. exact Hdel. }
        right. exists i, op_i, rest_i, p'. cbn [threads object lock_order].
        split; [| split; [| split; [| split; [| split]]]]; auto.
        -- rewrite nth_error_set_nth, Nat.eqb_refl, Hi. reflexivity.
        -- intros j t Hj Ht. rewrite nth_error_set_nth in Ht.
           destruct (Nat.eqb_spec i j); [congruence |]. eauto.
        -- eauto.
        -- intros Hp'. destruct (Hmutex Hnd) as (o0 & Ho0 & Hm0).
           rewrite Ho in Ho0. injection Ho0 as <-. rewrite Ho in Hs.
           destruct (statement_keeps_mutex _ _ _ _ _ Hs Hp2 (or_intror Hm0));
             [contradiction | eauto].
      * injection Hfin as Hfin.
        cbn [lock_order] in Hleg |- *.
        rewrite order_after_inside in Hleg |- * by assumption.
        split; [reflexivity |]. split.
        { cbn [deleted object].
          destruct (object m) as [o |] eqn:Ho; [| discriminate Hs].
          rewrite Hdel. now destruct l'. }
        left. split; cbn [threads object lock_order]; [| now symmetry].
        intros j t Ht. rewrite nth_error_set_nth in Ht.
        destruct (Nat.eqb_spec i j).
        -- rewrite Hi in Ht. now injection Ht as <-.
        -- eauto.
      * injection Hfin as Hfin.
        cbn [lock_order] in Hleg. rewrite order_after_inside in Hleg by assumption.
        destruct (legal_run _ Hleg) as [l Hl].
        unfold atomic in Hfin. congruence.
    + (* another thread tries the mutex *)
      pose proof (Hothers k _ Hki Hk) as Hp. cbn [standing] in Hp. subst p.
      destruct (legal_run _ Hleg0) as [l0 Hl0].
      destruct (object m) as [o |] eqn:Ho.
      * cbn [statement] in Hleg |- *. unfold lock in Hleg |- *.
        destruct (refMutex o) eqn:Hm.
        { (* it waits *)
          unfold consistent, busy. rewrite Ho.
          split; [assumption |]. split; [assumption |].
          right. exists i, op_i, rest_i, p_i. eauto 10. }
        exfalso.
        assert (Hpi : p_i = at_delete_this).
        { destruct p_i; try reflexivity;
            (destruct Hmutex as (o0 & Ho0 & Hm0); [discriminate |]);
            injection Ho0 as <-; congruence. }
        subst p_i.
        destruct n as [| n]; [discriminate Hfin |]. rewrite finish_S in Hfin.
        cbn [statement] in Hfin.
        unfold delete_this in Hfin. rewrite Hm in Hfin. injection Hfin as Hfin.
        cbn [lock_order order_after] in Hleg.
        symmetry in Hfin.
        now rewrite (legal_after_delete _ op Hfin) in Hleg.
      * exfalso.
        destruct n as [| n]; [discriminate Hfin |]. rewrite finish_S in Hfin.
        cbn [statement] in Hfin. injection Hfin as Hfin.
        unfold atomic in Hfin. congruence.
Qed.

Lemma consistent_start (ops : list (list refop)) :
  consistent Interfaces (start ops).
Proof.
  unfold consistent, start; cbn. split; [reflexivity |].
  split; [reflexivity |]. left. split; [| reflexivity]. cbn.
  intros j t Ht. apply nth_error_In, in_map_iff in Ht as (u & <- & _).
  reflexivity.
Qed.

Lemma exec_snoc (rev : revision) (schedule : list nat) (k : nat) (m : machine) :
  exec rev (schedule ++ [k]) m = thread_step rev k (exec rev schedule m).
Proof. unfold exec. now rewrite fold_left_app. Qed.

Lemma consistent_exec (ops : list (list refop)) (schedule : list nat) :
  legal (lock_order (exec later_revision schedule (start ops))) = true ->
  consistent Interfaces (exec later_revision schedule (start ops)).
Proof.
  induction schedule as [| k schedule IH] using rev_ind; intros Hleg.
  - apply consistent_start.
  - rewrite exec_snoc in Hleg |- *. apply consistent_step; [| assumption].
    apply IH.
    destruct (lock_order_step later_revision k
                (exec later_revision schedule (start ops))) as [E | [op E]];
      rewrite E in Hleg; [assumption | exact (legal_prefix _ _ Hleg)].
Qed.

Lemma busy_not_finished (m : machine) (i : nat) :
  busy Interfaces m i -> finished m = false.
Proof.
  intros (op & rest & p & Hi & _).
  destruct (finished m) eqn:H; [| reflexivity].
  unfold finished in H. rewrite forallb_forall in H.
  specialize (H _ (nth_error_In _ _ Hi)). discriminate H.
Qed.

End Machine.

(** X17: the later revision under any schedule.  However the statements
    of the threads' calls are interleaved, as long as the calls take the
    mutex in an order that the reference protocol allows, no call stops at
    an assertion, an overflow or a deleted object, [delete this] runs at
    most once, and once every call has returned the object is what the
    calls, made one after the other in the order in which they took the
    mutex, leave: deleted, exactly once, when that order is balanced. *)
Theorem later_revision_schedules :
  forall (Interfaces : list descriptor) (ops : list (list refop))
         (schedule : list nat) (m : machine),
    m = exec later_revision schedule (start ops) ->
    legal (lock_order m) = true ->
    stopped m = None /\
    (deleted m <= 1)%nat /\
    (object m = Deleted <-> deleted m = 1%nat) /\
    (finished m = true ->
     run Interfaces (map call_of (lock_order m)) (Alive new_UnknownImpl)
     = Normal (object m)) /\
    (finished m = true -> balanced (lock_order m) = true ->
     object m = Deleted /\ deleted m = 1%nat).
Proof.
  intros Interfaces ops schedule m -> Hleg.
  destruct (consistent_exec Interfaces ops schedule Hleg)
    as (Hstop & Hdel & Hstate).
  set (m := exec later_revision schedule (start ops)) in *.
  assert (Hquiet : finished m = true ->
            run Interfaces (map call_of (lock_order m)) (Alive new_UnknownImpl)
            = Normal (object m)).
  { intros Hfin. destruct Hstate as [[_ Hrun] | [i Hbusy]]; [exact Hrun |].
    rewrite (busy_not_finished Interfaces m i Hbusy) in Hfin. discriminate Hfin. }
  split; [assumption |]. split; [| split; [| split; [assumption |]]].
  - rewrite Hdel. destruct (object m); lia.
  - rewrite Hdel. destruct (object m); split; intros H;
      first [reflexivity | discriminate H].
  - intros Hfin Hbal. specialize (Hquiet Hfin).
    destruct (balanced_run Interfaces _ Hbal)
      as (pre & last & o & _ & _ & _ & _ & _ & Hrun & _).
    rewrite Hrun in Hquiet. injection Hquiet as Hobj.
    rewrite Hdel, <- Hobj. auto.
Qed.

Lemma later_revision_schedules_witness :
  stopped (exec later_revision releases_overlap_to_the_end (start two_threads))
  = None /\
  (deleted (exec later_revision releases_overlap_to_the_end (start two_threads))
   <= 1)%nat /\
  (object (exec later_revision releases_overlap_to_the_end (start two_threads))
   = Deleted <->
   deleted (exec later_revision releases_overlap_to_the_end (start two_threads))
   = 1%nat) /\
  (finished (exec later_revision releases_overlap_to_the_end (start two_threads))
   = true ->
   run [] (map call_of
             (lock_order (exec later_revision releases_overlap_to_the_end
                               (start two_threads))))
       (Alive new_UnknownImpl)
   = Normal (object (exec later_revision releases_overlap_to_the_end
                          (start two_threads)))) /\
  (finished (exec later_revision releases_overlap_to_the_end (start two_threads))
   = true ->
   balanced (lock_order (exec later_revision releases_overlap_to_the_end
                              (start two_threads))) = true ->
   object (exec later_revision releases_overlap_to_the_end (start two_threads))
   = Deleted /\
   deleted (exec later_revision releases_overlap_to_the_end (start two_threads))
   = 1%nat).
Proof.
  apply (later_revision_schedules [] two_threads releases_overlap_to_the_end).
  - reflexivity.
  - vm_compute; reflexivity.
Defined.

